(** * The repack driver of [example_repository.py]

    A shallow embedding of [export_from_pack_grouped]: the loop that moves
    the objects of one pack store into another, buffering small objects in
    an in-memory cache bounded by [max_memory_usage] and writing them to
    the output container in batches.

    What is modelled, and how:
    - a hashkey is a [string]; the content of a stream is a list of bytes;
      [meta['size']] is a Python integer, hence a [Z];
    - a triplet yielded by [get_objects_stream_and_meta] is a record
      holding the old hashkey, the content that [stream.read()] returns
      and the declared size; the groups given to the driver are the lists
      of triplets the source container yields for each chunk of nodes;
    - [content_cache] is a Python dict that the code iterates with
      [items()]: its insertion order is observable, so it is an
      insertion-ordered association list with update in place;
    - [old_new_obj_hashkey_mapping] is a Python dict that is only looked
      up by key: a [gmap];
    - [output_container.add_streamed_objects_to_pack] belongs to another
      package: it is an operation of the class [PackWriter], and every
      call the driver makes is appended to a log kept next to the
      container;
    - Python exceptions are the [Raise] results of a small error monad;
      a local variable that may still be unbound is an [option].

    Timing, printing and the size statistics have no bearing on the
    results and are left out.

    The other functions of the file are modelled next to it:
    [export_from_pack], the sibling without a cache; the part of
    [import_from_legacy_repo] that walks the legacy layout and builds the
    dict of node folders, the file system being seen through
    [os.listdir]; [create_folder], with the node repository seen through
    [list_objects] and [open] and the file system through the calls made
    to it; and, of [main], the cutting of the node uuids in two chunks
    and the path of a node in the legacy layout. File and directory
    names are strings of one-byte characters, so that [len] is the
    length of the string; paths are joined as [posixpath.join] does. *)

From stdpp Require Import base option list numbers strings pretty gmap.
From Stdlib Require Import Strings.Byte Strings.Ascii.

Open Scope Z_scope.

(** ** Data *)

Definition hashkey := string.
Definition bytes := list byte.

(** One item of [for old_obj_hashkey, stream, meta in triplets]. *)
Record triplet := Triplet {
  old_obj_hashkey : hashkey;
  stream : bytes;          (* what [stream.read()] returns *)
  meta_size : Z            (* [meta['size']] *)
}.

(** [len(...)] of a buffer, as a Python integer. *)
Definition len (b : bytes) : Z := Z.of_nat (length b).

(** ** Exceptions *)

Inductive exn := IndexError | UnboundLocalError.

Inductive result (A : Type) :=
| Ok (a : A)
| Raise (e : exn).
Arguments Ok {A} a.
Arguments Raise {A} e.

#[global] Instance result_ret : MRet result := λ A a, Ok a.
#[global] Instance result_bind : MBind result := λ A B f m,
  match m with
  | Ok a => f a
  | Raise e => Raise e
  end.

(** ** Python dicts *)

Module PyDict.

(** A dict whose iteration order matters: the pairs in insertion order,
    every key at most once. *)
Definition t (V : Type) := list (hashkey * V).

(** [d[k] = v]: a key already present keeps its place and takes the new
    value, a new key goes to the end. *)
Fixpoint setitem {V} (d : t V) (k : hashkey) (v : V) : t V :=
  match d with
  | [] => [(k, v)]
  | (k', v') :: d' =>
      if decide (k' = k) then (k, v) :: d' else (k', v') :: setitem d' k v
  end.

(** [d.items()] *)
Definition items {V} (d : t V) : list (hashkey * V) := d.

(** [dict(pairs)] for a dict that is only looked up: the pairs are
    inserted from left to right, a later pair replaces an earlier one
    with the same key. *)
Definition of_pairs (ps : list (hashkey * hashkey)) : gmap hashkey hashkey :=
  foldl (λ m p, <[p.1 := p.2]> m) ∅ ps.

End PyDict.

(** ** The output container *)

(** [add_streamed_objects_to_pack(stream_list, compress=...)]: takes the
    contents to store and returns the new hashkeys and the container as it
    is after the call. *)
Class PackWriter (Container : Type) :=
  add_streamed_objects_to_pack :
    Container → list bytes → bool → list hashkey * Container.

(** What the driver expects of the container: one new hashkey for each
    stream handed over. *)
Definition positional `{PackWriter Container} : Prop :=
  ∀ (c : Container) (stream_list : list bytes) (z : bool),
    length (add_streamed_objects_to_pack c stream_list z).1 = length stream_list.

(** One call of the driver to [add_streamed_objects_to_pack]: the streams
    passed, the flag, the hashkeys returned, and (for reference only, the
    container does not see them) the old hashkeys the driver holds for the
    streams, in the same list order. *)
Record call := Call {
  call_old_hashkeys : list hashkey;
  call_stream_list : list bytes;
  call_compress : bool;
  call_new_hashkeys : list hashkey
}.

(** The container together with the log of the calls made to it. *)
Record world (Container : Type) := World {
  output_container : Container;
  pack_calls : list call
}.
Arguments World {Container} _ _.
Arguments output_container {Container} _.
Arguments pack_calls {Container} _.

(** ** A container for running the driver

    A stand-in for the output container that stores nothing and numbers
    the objects it is given: the container is the count of objects
    received so far, and the n-th object gets the hashkey [new-n]. *)

Definition synthetic_hashkey (n : nat) : hashkey := "new-" +:+ pretty n.

#[global] Instance counting_writer : PackWriter nat := λ c stream_list _,
  ((λ i, synthetic_hashkey (c + i)) <$> seq 0 (length stream_list),
   (c + length stream_list)%nat).

(** A container that fails its caller: it stores nothing and returns no
    hashkey at all, whatever it is given. *)
#[global] Instance mute_writer : PackWriter unit := λ c _ _, ([], c).

(** A buffer of [n] zero bytes. *)
Definition zeros (n : nat) : bytes := replicate n x00.

(** An object whose declared size is the length of its content. *)
Definition object (k : hashkey) (n : nat) : triplet :=
  {| old_obj_hashkey := k; stream := zeros n; meta_size := Z.of_nat n |}.

(** ** Paths and the legacy layout *)

(** [s[:n]] and [s[n:]] of a Python string, and [s[a:b]] for [a <= b];
    a slice that runs past the end of the string is cut short. *)
Fixpoint string_take (n : nat) (s : string) : string :=
  match n, s with
  | S n', String c s' => String c (string_take n' s')
  | _, _ => ""
  end.

Fixpoint string_drop (n : nat) (s : string) : string :=
  match n, s with
  | S n', String _ s' => string_drop n' s'
  | _, _ => s
  end.

Definition slice (a b : nat) (s : string) : string :=
  string_take (b - a) (string_drop a s).

(** [b.startswith('/')] and [path.endswith('/')]. *)
Definition startswith_sep (b : string) : bool :=
  match b with
  | String "/"%char _ => true
  | _ => false
  end.

Fixpoint endswith_sep (path : string) : bool :=
  match path with
  | "" => false
  | String "/"%char "" => true
  | String _ rest => endswith_sep rest
  end.

(** One round of the loop of [posixpath.join]: an absolute component
    replaces what came before it, any other one is appended, after a
    separator unless the path is empty or ends with one. *)
Definition join_component (path b : string) : string :=
  if startswith_sep b then b
  else if bool_decide (path = "") || endswith_sep path then path +:+ b
  else path +:+ "/" +:+ b.

(** [os.path.join(a, *p)] *)
Definition os_path_join (a : string) (p : list string) : string :=
  foldl join_component a p.

(** The folder of a node in the legacy layout, as [main] builds it at
    lines 420-423: [os.path.join(base, uuid[:2], uuid[2:4], uuid[4:])]. *)
Definition legacy_node_folder (base node_uuid : string) : string :=
  os_path_join base
    [slice 0 2 node_uuid; slice 2 4 node_uuid; string_drop 4 node_uuid].

(** The test of lines 216-217 and 220-221 that makes the loops of
    [import_from_legacy_repo] skip an entry:
    [len(level) != 2 or any(char not in "0123456789abcdef" for char in level)]. *)
Definition not_a_shard (level : string) : bool :=
  negb (String.length level =? 2)%nat
  || existsb (λ char, negb (bool_decide
                (char ∈ String.list_ascii_of_string "0123456789abcdef")))
       (String.list_ascii_of_string level).

(** A [for] loop over a list whose body may raise. *)
Fixpoint for_each {A S : Type} (xs : list A) (body : S → A → option S) (s : S)
    : option S :=
  match xs with
  | [] => Some s
  | x :: rest => s' ← body s x; for_each rest body s'
  end.

(** Lines 213-233 of [import_from_legacy_repo]: the dict [folder_paths]
    that the function hands to [create_repo_for_nodes] and returns. The
    file system is seen through [listdir], which is [os.listdir] and
    gives [None] where [os.listdir] raises. *)
Definition import_from_legacy_repo (listdir : string → option (list string))
    (node_folder : string) : option (gmap string string) :=
  level1s ← listdir node_folder;
  for_each level1s (λ folder_paths level1,
    if not_a_shard level1 then Some folder_paths else
    level2s ← listdir (os_path_join node_folder [level1]);
    for_each level2s (λ folder_paths level2,
      if not_a_shard level2 then Some folder_paths else
      node_uuid_parts ← listdir (os_path_join node_folder [level1; level2]);
      for_each node_uuid_parts (λ folder_paths node_uuid_part,
        let node_uuid := level1 +:+ level2 +:+ node_uuid_part in
        if negb (String.length node_uuid =? 36)%nat then Some folder_paths else
        let repo_node_folder :=
          os_path_join node_folder [level1; level2; node_uuid_part] in
        Some (<[node_uuid := repo_node_folder]> folder_paths))
      folder_paths)
    folder_paths) ∅.

(** A folder of the legacy layout as the three loops find it: the two
    levels are listed and are not skipped, and the rest of the name is
    listed under them. *)
Definition listed (listdir : string → option (list string))
    (node_folder level1 level2 node_uuid_part : string) : Prop :=
  ∃ level1s level2s node_uuid_parts,
    listdir node_folder = Some level1s ∧ level1 ∈ level1s
    ∧ not_a_shard level1 = false
    ∧ listdir (os_path_join node_folder [level1]) = Some level2s
    ∧ level2 ∈ level2s ∧ not_a_shard level2 = false
    ∧ listdir (os_path_join node_folder [level1; level2]) = Some node_uuid_parts
    ∧ node_uuid_part ∈ node_uuid_parts.

(** A dict of folders that has an entry for exactly the node uuids
    that satisfy [D], each with its folder in the legacy layout under
    [node_folder]. *)
Definition folder_paths_of (node_folder : string) (D : string → Prop)
    (folder_paths : gmap string string) : Prop :=
  ∀ node_uuid path,
    folder_paths !! node_uuid = Some path
    ↔ path = legacy_node_folder node_folder node_uuid ∧ D node_uuid.

(** Lines 360-362 of [main]: the node uuids are cut in two chunks,
    [node_uuids[:len(node_uuids) // 2]] and [node_uuids[len(node_uuids) // 2:]]. *)
Definition two_chunks {A : Type} (node_uuids : list A) : list A * list A :=
  (take (length node_uuids / 2) node_uuids,
   drop (length node_uuids / 2) node_uuids).

(** ** [create_folder] *)

(** The type of an object of a node repository: [FileType.DIRECTORY],
    [FileType.FILE], or any other value. *)
Inductive FileType := DIRECTORY | FILE | UNKNOWN.

(** The calls that [create_folder] makes to the file system: [os.mkdir]
    and the writing of a file opened with ['wb']. *)
Inductive fs_call :=
| Mkdir (path : string)
| WriteFile (path : string) (content : bytes).

Definition fs_call_path (c : fs_call) : string :=
  match c with
  | Mkdir path => path
  | WriteFile path _ => path
  end.

Inductive fs_exn := RuntimeError | RecursionError.

Section CreateFolder.

(** [node_repo.list_objects(path)], as the names and types of the objects
    listed, and [node_repo.open(path).read()]. *)
Variable list_objects : string → list (string * FileType).
Variable open_read : string → bytes.

(** Lines 15-28. The result is the list of the calls made to the file
    system, which are taken to succeed, and the exception raised, if
    any. [depth] is the number of nested calls that Python still allows:
    the function calls itself for every directory. *)
Fixpoint create_folder (depth : nat) (base : string) (start_from : string)
    : list fs_call * option fs_exn :=
  match depth with
  | O => ([], Some RecursionError)
  | S depth' =>
      (fix for_objects (objs : list (string * FileType))
         : list fs_call * option fs_exn :=
         match objs with
         | [] => ([], None)
         | (name, type) :: rest =>
             let obj_relpath := os_path_join start_from [name] in
             match type with
             | DIRECTORY =>
                 let inner := create_folder depth' base obj_relpath in
                 match inner.2 with
                 | Some e =>
                     (Mkdir (os_path_join base [obj_relpath]) :: inner.1, Some e)
                 | None =>
                     let others := for_objects rest in
                     (Mkdir (os_path_join base [obj_relpath])
                        :: inner.1 ++ others.1, others.2)
                 end
             | FILE =>
                 let others := for_objects rest in
                 (WriteFile (os_path_join base [obj_relpath])
                    (open_read obj_relpath) :: others.1, others.2)
             | UNKNOWN => ([], Some RuntimeError)
             end
         end) (list_objects start_from)
  end.

End CreateFolder.

(** ** Small trees for running the functions above *)

(** A legacy repository with one node, one entry whose name is not a
    shard and, next to the node, a name that is too short. *)
Definition sample_listdir (path : string) : option (list string) :=
  if bool_decide (path = "/r/node") then Some ["ab"; "zz"; "README"]
  else if bool_decide (path = "/r/node/ab") then Some ["cd"; "x"]
  else if bool_decide (path = "/r/node/ab/cd")
       then Some ["ef01-2345-6789-abcd-ef0123456789"; "short"]
  else None.

(** A node repository with a file and a directory that holds a file. *)
Definition sample_objects (path : string) : list (string * FileType) :=
  if bool_decide (path = "") then [("a.txt", FILE); ("d", DIRECTORY)]
  else if bool_decide (path = "d") then [("b.txt", FILE)]
  else [].

(** The same with an object of another type in the directory. *)
Definition sample_objects_unknown (path : string) : list (string * FileType) :=
  if bool_decide (path = "") then [("a.txt", FILE); ("d", DIRECTORY)]
  else if bool_decide (path = "d") then [("b.txt", FILE); ("l", UNKNOWN)]
  else [].

(** ** The driver *)

Section Driver.

Context `{PackWriter Container}.
Variable compress : bool.
Variable max_memory_usage : Z.

(** The variables of one [with ... as triplets:] block. *)
Record locals := Locals {
  old_obj_hashkeys : list hashkey;
  new_obj_hashkeys : list hashkey;
  content_cache : PyDict.t bytes;
  cache_size : Z;
  outside : world Container
}.

(** Lines 125-128. *)
Definition enter (w : world Container) : locals :=
  {| old_obj_hashkeys := []; new_obj_hashkeys := [];
     content_cache := []; cache_size := 0; outside := w |}.

(** A call to the container, logged. *)
Definition logged_write (w : world Container) (olds : list hashkey)
    (stream_list : list bytes) : list hashkey * world Container :=
  let r := add_streamed_objects_to_pack (output_container w) stream_list compress in
  (r.1, World r.2 (pack_calls w ++ [Call olds stream_list compress r.1])).

(** Lines 149-162, and again lines 175-187: the cache is turned into
    the two lists [temp_old_hashkeys] and [stream_list] by one loop over
    [content_cache.items()], written, and emptied. *)
Definition flush (st : locals) : locals :=
  let temp_old_hashkeys := (PyDict.items (content_cache st)).*1 in
  let stream_list := (PyDict.items (content_cache st)).*2 in
  let r := logged_write (outside st) temp_old_hashkeys stream_list in
  let temp_new_hashkeys := r.1 in
  {| old_obj_hashkeys := old_obj_hashkeys st ++ temp_old_hashkeys;
     new_obj_hashkeys := new_obj_hashkeys st ++ temp_new_hashkeys;
     content_cache := [];
     cache_size := 0;
     outside := r.2 |}.

(** Lines 164-165, and again lines 169-170. *)
Definition buffer (st : locals) (t : triplet) : locals :=
  {| old_obj_hashkeys := old_obj_hashkeys st;
     new_obj_hashkeys := new_obj_hashkeys st;
     content_cache :=
       PyDict.setitem (content_cache st) (old_obj_hashkey t) (stream t);
     cache_size := cache_size st + meta_size t;
     outside := outside st |}.

(** Lines 136-140. The [[0]] raises when the container returns no
    hashkey. *)
Definition direct_write (st : locals) (t : triplet) : result locals :=
  let r := logged_write (outside st) [old_obj_hashkey t] [stream t] in
  match r.1 with
  | [] => Raise IndexError
  | new_obj_hashkey :: _ =>
      Ok {| old_obj_hashkeys := old_obj_hashkeys st ++ [old_obj_hashkey t];
            new_obj_hashkeys := new_obj_hashkeys st ++ [new_obj_hashkey];
            content_cache := content_cache st;
            cache_size := cache_size st;
            outside := r.2 |}
  end.

(** The body of the loop over the triplets, lines 130-170. *)
Definition loop_body (st : locals) (t : triplet) : result locals :=
  if meta_size t >? max_memory_usage then
    direct_write st t
  else if cache_size st + meta_size t >? max_memory_usage then
    Ok (buffer (flush st) t)
  else
    Ok (buffer st t).

(** [for old_obj_hashkey, stream, meta in triplets: ...] *)
Fixpoint for_triplets (st : locals) (triplets : list triplet) : result locals :=
  match triplets with
  | [] => Ok st
  | t :: rest => st' ← loop_body st t; for_triplets st' rest
  end.

(** Lines 125-187: one group, up to and including the final flush. *)
Definition export_group (w : world Container) (triplets : list triplet)
    : result locals :=
  st ← for_triplets (enter w) triplets; Ok (flush st).

(** Lines 189-190. *)
Definition group_mapping (st : locals) : gmap hashkey hashkey :=
  PyDict.of_pairs (zip (old_obj_hashkeys st) (new_obj_hashkeys st)).

(** [for idx, node_uuids_chunk in enumerate(node_uuids_groups, start=1)]:
    [old_new_obj_hashkey_mapping] is assigned in the body only, so it is
    unbound until the first group has been processed. *)
Fixpoint for_groups (w : world Container)
    (old_new_obj_hashkey_mapping : option (gmap hashkey hashkey))
    (groups : list (list triplet))
    : result (world Container * option (gmap hashkey hashkey)) :=
  match groups with
  | [] => Ok (w, old_new_obj_hashkey_mapping)
  | triplets :: rest =>
      st ← export_group w triplets;
      for_groups (outside st) (Some (group_mapping st)) rest
  end.

(** The function, from the creation of the container [c] to line 204.
    The container is returned together with the log of the calls made
    to it. *)
Definition export_from_pack_grouped (c : Container)
    (node_uuids_groups : list (list triplet))
    : result (world Container * gmap hashkey hashkey) :=
  r ← for_groups (World c []) None node_uuids_groups;
  match r.2 with
  | None => Raise UnboundLocalError
  | Some old_new_obj_hashkey_mapping => Ok (r.1, old_new_obj_hashkey_mapping)
  end.

(** *** [export_from_pack]

    The sibling of the function above that uses no cache: every object is
    written on its own as soon as it is yielded. *)

(** The variables of one [with ... as triplets:] block, lines 69-70. *)
Record pack_locals := PackLocals {
  pack_old_obj_hashkeys : list hashkey;
  pack_new_obj_hashkeys : list hashkey;
  pack_outside : world Container
}.

(** Lines 72-75. *)
Definition pack_body (st : pack_locals) (t : triplet) : result pack_locals :=
  let r := logged_write (pack_outside st) [old_obj_hashkey t] [stream t] in
  match r.1 with
  | [] => Raise IndexError
  | new_obj_hashkey :: _ =>
      Ok {| pack_old_obj_hashkeys := pack_old_obj_hashkeys st ++ [old_obj_hashkey t];
            pack_new_obj_hashkeys := pack_new_obj_hashkeys st ++ [new_obj_hashkey];
            pack_outside := r.2 |}
  end.

(** [for old_obj_hashkey, stream, _ in triplets: ...], lines 71-75. *)
Fixpoint pack_triplets (st : pack_locals) (triplets : list triplet)
    : result pack_locals :=
  match triplets with
  | [] => Ok st
  | t :: rest => st' ← pack_body st t; pack_triplets st' rest
  end.

(** Lines 69-79: one group. *)
Definition pack_group (w : world Container) (triplets : list triplet)
    : result pack_locals :=
  pack_triplets {| pack_old_obj_hashkeys := []; pack_new_obj_hashkeys := [];
                   pack_outside := w |} triplets.

(** Lines 78-79. *)
Definition pack_mapping (st : pack_locals) : gmap hashkey hashkey :=
  PyDict.of_pairs (zip (pack_old_obj_hashkeys st) (pack_new_obj_hashkeys st)).

(** The loop over the groups, lines 48-87. *)
Fixpoint pack_groups (w : world Container)
    (old_new_obj_hashkey_mapping : option (gmap hashkey hashkey))
    (groups : list (list triplet))
    : result (world Container * option (gmap hashkey hashkey)) :=
  match groups with
  | [] => Ok (w, old_new_obj_hashkey_mapping)
  | triplets :: rest =>
      st ← pack_group w triplets;
      pack_groups (pack_outside st) (Some (pack_mapping st)) rest
  end.

(** The function, from the creation of the container [c] to line 93. *)
Definition export_from_pack (c : Container)
    (node_uuids_groups : list (list triplet))
    : result (world Container * gmap hashkey hashkey) :=
  r ← pack_groups (World c []) None node_uuids_groups;
  match r.2 with
  | None => Raise UnboundLocalError
  | Some old_new_obj_hashkey_mapping => Ok (r.1, old_new_obj_hashkey_mapping)
  end.

(** The state at the head of the loop at some point of the processing of
    [triplets]: the items of [pre] have been consumed, those of [post]
    are still to come. *)
Definition reaches (w : world Container) (triplets : list triplet)
    (st : locals) : Prop :=
  ∃ pre post, triplets = pre ++ post ∧ for_triplets (enter w) pre = Ok st.

(** The sum of the lengths of the buffers held in a cache. *)
Definition buffered_size (d : PyDict.t bytes) : Z :=
  foldr Z.add 0 (len <$> (PyDict.items d).*2).

(** A call whose two input lists go together, with respect to the items
    [triplets] of the group: they have the same length, one hashkey came
    back for each of them, and the stream at position [i] is the content
    that came with the old hashkey at position [i]. *)
Definition consistent_call (triplets : list triplet) (c : call) : Prop :=
  length (call_old_hashkeys c) = length (call_stream_list c)
  ∧ length (call_new_hashkeys c) = length (call_old_hashkeys c)
  ∧ ∀ (i : nat) (k : hashkey), call_old_hashkeys c !! i = Some k →
      ∃ t, t ∈ triplets ∧ old_obj_hashkey t = k
           ∧ call_stream_list c !! i = Some (stream t).

(** What the hashkey lists and the log of calls of a group look like once
    the items of [pre] have been consumed: every buffer in the cache is
    the content that came with its key, the calls made since the group
    was entered are consistent, and the two hashkey lists are the old
    and the new hashkeys of these calls, in the order of the calls. *)
Definition batches_in_step (w : world Container) (pre : list triplet)
    (st : locals) : Prop :=
  (∀ k b, (k, b) ∈ content_cache st →
     ∃ t, t ∈ pre ∧ old_obj_hashkey t = k ∧ stream t = b)
  ∧ ∃ cs, pack_calls (outside st) = pack_calls w ++ cs
          ∧ Forall (consistent_call pre) cs
          ∧ old_obj_hashkeys st = concat (call_old_hashkeys <$> cs)
          ∧ new_obj_hashkeys st = concat (call_new_hashkeys <$> cs).

(** ** The loop over the triplets *)

Lemma for_triplets_app (st : locals) (pre post : list triplet) :
  for_triplets st (pre ++ post) = (for_triplets st pre ≫= λ st', for_triplets st' post).
Proof.
  revert st. induction pre as [|t pre IH]; intros st; simpl; [done|].
  destruct (loop_body st t) as [st'|e]; simpl; [apply IH | done].
Qed.

Lemma for_triplets_snoc (st st' : locals) (pre : list triplet) (t : triplet) :
  for_triplets st (pre ++ [t]) = Ok st' →
  ∃ st1, for_triplets st pre = Ok st1 ∧ loop_body st1 t = Ok st'.
Proof.
  rewrite for_triplets_app. destruct (for_triplets st pre) as [st1|e]; simpl; [|done].
  destruct (loop_body st1 t) as [st2|e] eqn:Hb; simpl; [|done].
  intros [= <-]. eauto.
Qed.

(** A property of the state and of the items consumed so far that holds
    on entry and is kept by the body of the loop holds at every head of
    the loop. *)
Lemma loop_invariant (P : locals → list triplet → Prop) (st0 : locals) :
  P st0 [] →
  (∀ st pre t st', P st pre → loop_body st t = Ok st' → P st' (pre ++ [t])) →
  ∀ pre st, for_triplets st0 pre = Ok st → P st pre.
Proof.
  intros Hinit Hstep pre. induction pre as [|t pre IH] using rev_ind; intros st.
  - simpl. by intros [= <-].
  - intros (st1 & Hpre & Hb)%for_triplets_snoc. eauto.
Qed.

(** The three ways through the body of the loop. *)
Lemma loop_body_cases (st st' : locals) (t : triplet) :
  loop_body st t = Ok st' →
  (meta_size t > max_memory_usage ∧ direct_write st t = Ok st')
  ∨ (meta_size t ≤ max_memory_usage
     ∧ cache_size st + meta_size t > max_memory_usage
     ∧ st' = buffer (flush st) t)
  ∨ (meta_size t ≤ max_memory_usage
     ∧ cache_size st + meta_size t ≤ max_memory_usage
     ∧ st' = buffer st t).
Proof.
  unfold loop_body.
  destruct (Z.gtb_spec (meta_size t) max_memory_usage);
    [intros; left; split; [lia|done]|].
  destruct (Z.gtb_spec (cache_size st + meta_size t) max_memory_usage);
    intros [= <-]; [right; left | right; right]; repeat split; lia.
Qed.

Lemma direct_write_inv (st st' : locals) (t : triplet) :
  direct_write st t = Ok st' →
  ∃ new_obj_hashkey rest,
    (add_streamed_objects_to_pack (output_container (outside st))
       [stream t] compress).1 = new_obj_hashkey :: rest
    ∧ st' = {| old_obj_hashkeys := old_obj_hashkeys st ++ [old_obj_hashkey t];
               new_obj_hashkeys := new_obj_hashkeys st ++ [new_obj_hashkey];
               content_cache := content_cache st;
               cache_size := cache_size st;
               outside := (logged_write (outside st)
                             [old_obj_hashkey t] [stream t]).2 |}.
Proof.
  unfold direct_write. simpl.
  destruct (add_streamed_objects_to_pack _ _ _).1 as [|n rest]; [done|].
  intros [= <-]. eauto.
Qed.

(** ** The cache *)

Lemma setitem_elem {V} (d : PyDict.t V) (k k' : hashkey) (v v' : V) :
  (k', v') ∈ PyDict.setitem d k v → (k', v') ∈ d ∨ (k', v') = (k, v).
Proof.
  induction d as [|[k0 v0] d IH]; simpl.
  - intros ->%list_elem_of_singleton. by right.
  - case_decide as Hk.
    + intros [->|Hin]%elem_of_cons; [by right | left; by apply elem_of_cons; right].
    + intros [->|Hin]%elem_of_cons; [left; by apply elem_of_cons; left|].
      destruct (IH Hin) as [?|?]; [left; by apply elem_of_cons; right | by right].
Qed.

Lemma setitem_fresh {V} (d : PyDict.t V) (k : hashkey) (v : V) :
  k ∉ d.*1 → PyDict.setitem d k v = d ++ [(k, v)].
Proof.
  induction d as [|[k0 v0] d IH]; simpl; [done|].
  intros Hk. apply not_elem_of_cons in Hk as [Hne Hk].
  case_decide; [congruence|]. by rewrite IH.
Qed.

Lemma setitem_nonempty {V} (d : PyDict.t V) (k : hashkey) (v : V) :
  PyDict.setitem d k v ≠ [].
Proof. destruct d as [|[k0 v0] d]; simpl; [done|]. by case_decide. Qed.

Lemma buffered_size_snoc (d : PyDict.t bytes) (k : hashkey) (b : bytes) :
  buffered_size (d ++ [(k, b)]) = buffered_size d + len b.
Proof.
  unfold buffered_size, PyDict.items.
  induction d as [|[k0 b0] d IH]; cbn [app fmap list_fmap foldr snd].
  - lia.
  - cbn [app fmap list_fmap foldr snd] in IH. rewrite IH. lia.
Qed.

(** C2. With a budget greater than zero, at every head of the loop over
    the triplets of a group the tracked [cache_size] is at most
    [max_memory_usage], it is so again once the cache has been flushed,
    and every buffer in the cache came with a triplet whose declared size
    is at most the budget: an object bigger than the budget is never put
    in the cache. *)
Theorem cache_size_within_budget (w : world Container)
    (triplets : list triplet) (st : locals) :
  0 < max_memory_usage →
  reaches w triplets st →
  cache_size st ≤ max_memory_usage
  ∧ cache_size (flush st) ≤ max_memory_usage
  ∧ ∀ k b, (k, b) ∈ PyDict.items (content_cache st) →
      ∃ t, t ∈ triplets ∧ old_obj_hashkey t = k ∧ stream t = b
           ∧ meta_size t ≤ max_memory_usage.
Proof.
  intros Hpos (pre & post & -> & Hrun).
  cut (cache_size st ≤ max_memory_usage
       ∧ ∀ k b, (k, b) ∈ content_cache st →
           ∃ t, t ∈ pre ∧ old_obj_hashkey t = k ∧ stream t = b
                ∧ meta_size t ≤ max_memory_usage).
  { intros [Hs Hc]. split; [done|]. split; [simpl; lia|].
    intros k b Hkb. destruct (Hc k b Hkb) as (t & Ht & Hrest).
    exists t. split; [|done]. apply elem_of_app. by left. }
  revert pre st Hrun. apply loop_invariant.
  - simpl. split; [lia|]. intros k b Hin. by apply elem_of_nil in Hin.
  - intros st pre t st' [Hs Hc] Hb.
    assert (∀ k b, (k, b) ∈ content_cache st →
              ∃ t0, t0 ∈ pre ++ [t] ∧ old_obj_hashkey t0 = k ∧ stream t0 = b
                    ∧ meta_size t0 ≤ max_memory_usage) as Hc'.
    { intros k b Hin. destruct (Hc k b Hin) as (t0 & Ht0 & Hrest).
      exists t0. split; [|done]. apply elem_of_app. by left. }
    assert (t ∈ pre ++ [t]) as Ht.
    { apply elem_of_app. right. by apply list_elem_of_singleton. }
    apply loop_body_cases in Hb
      as [[Hgt Hd] | [(Hle & Hgt & ->) | (Hle & Hle2 & ->)]].
    + apply direct_write_inv in Hd as (n & rest & _ & ->). simpl. by split.
    + simpl. split; [lia|].
      intros k b [= -> ->]%list_elem_of_singleton. by exists t.
    + simpl. split; [lia|].
      intros k b [Hin|[= -> ->]]%setitem_elem; [by apply Hc' | by exists t].
Qed.

(** C4, amended. When the declared size of every triplet of the group is
    the length of its content and no old hashkey occurs twice in the
    group, the tracked [cache_size] is, at every head of the loop, the sum
    of the lengths of the buffers held in [content_cache]. *)
Theorem cache_size_is_buffered_size (w : world Container)
    (triplets : list triplet) (st : locals) :
  (∀ t, t ∈ triplets → meta_size t = len (stream t)) →
  NoDup (old_obj_hashkey <$> triplets) →
  reaches w triplets st →
  cache_size st = buffered_size (content_cache st).
Proof.
  intros Hlen Hnodup (pre & post & -> & Hrun).
  rewrite fmap_app in Hnodup. apply NoDup_app in Hnodup as (Hnodup & _ & _).
  assert (∀ t, t ∈ pre → meta_size t = len (stream t)) as Hlen'.
  { intros t Ht. apply Hlen, elem_of_app. by left. }
  clear Hlen. revert Hlen' Hnodup.
  cut ((∀ t, t ∈ pre → meta_size t = len (stream t)) →
       NoDup (old_obj_hashkey <$> pre) →
       cache_size st = buffered_size (content_cache st)
       ∧ ∀ k, k ∈ (content_cache st).*1 → k ∈ old_obj_hashkey <$> pre).
  { intros Hcut ? ?. by apply Hcut. }
  revert pre st Hrun.
  apply (loop_invariant (λ st pre,
    (∀ t, t ∈ pre → meta_size t = len (stream t)) →
    NoDup (old_obj_hashkey <$> pre) →
    cache_size st = buffered_size (content_cache st)
    ∧ ∀ k, k ∈ (content_cache st).*1 → k ∈ old_obj_hashkey <$> pre)).
  - intros _ _. split; [done|]. intros k Hk. by apply elem_of_nil in Hk.
  - intros st pre t st' IH Hb Hlen Hnodup.
    rewrite fmap_app in Hnodup. apply NoDup_app in Hnodup as (Hnodup & Hfresh & _).
    destruct IH as [Hsize Hkeys]; [|done|].
    { intros t0 Ht0. apply Hlen, elem_of_app. by left. }
    assert (meta_size t = len (stream t)) as Ht.
    { apply Hlen, elem_of_app. right. by apply list_elem_of_singleton. }
    assert (old_obj_hashkey t ∈ old_obj_hashkey <$> pre ++ [t]) as Hin.
    { rewrite fmap_app. apply elem_of_app. right. by apply list_elem_of_singleton. }
    apply loop_body_cases in Hb
      as [[Hgt Hd] | [(Hle & Hgt & ->) | (Hle & Hle2 & ->)]].
    + apply direct_write_inv in Hd as (n & rest & _ & ->). simpl.
      split; [done|]. intros k Hk. rewrite fmap_app. apply elem_of_app.
      left. by apply Hkeys.
    + simpl. split; [unfold buffered_size; simpl; lia|].
      by intros k ->%list_elem_of_singleton.
    + simpl. rewrite setitem_fresh.
      * rewrite buffered_size_snoc. split; [lia|].
        intros k. rewrite !fmap_app.
        intros [Hk|Hk]%elem_of_app; apply elem_of_app; [left; by apply Hkeys | by right].
      * intros Hk. apply (Hfresh (old_obj_hashkey t)); [by apply Hkeys|].
        by apply list_elem_of_singleton.
Qed.

(** ** The body of the loop *)

Lemma flush_then_buffer_differs (st : locals) (t : triplet) :
  buffer (flush st) t ≠ buffer st t.
Proof.
  intros Heq. apply (f_equal (λ s, length (pack_calls (outside s)))) in Heq.
  simpl in Heq. rewrite length_app in Heq. simpl in Heq. lia.
Qed.

(** C8. An object whose declared size is strictly greater than the budget
    is written at once, alone: the container, which returns one hashkey
    for each stream, is called with the single stream, the old hashkey
    and the one returned are appended to [old_obj_hashkeys] and
    [new_obj_hashkeys], and [content_cache] and [cache_size] are as they
    were. *)
Theorem direct_write_leaves_cache (st : locals) (t : triplet) :
  positional →
  meta_size t > max_memory_usage →
  ∃ new_obj_hashkey,
    (add_streamed_objects_to_pack (output_container (outside st))
       [stream t] compress).1 = [new_obj_hashkey]
    ∧ loop_body st t =
        Ok {| old_obj_hashkeys := old_obj_hashkeys st ++ [old_obj_hashkey t];
              new_obj_hashkeys := new_obj_hashkeys st ++ [new_obj_hashkey];
              content_cache := content_cache st;
              cache_size := cache_size st;
              outside :=
                World (add_streamed_objects_to_pack
                         (output_container (outside st)) [stream t] compress).2
                      (pack_calls (outside st)
                       ++ [Call [old_obj_hashkey t] [stream t] compress
                             [new_obj_hashkey]]) |}.
Proof.
  intros Hpos Hgt.
  pose proof (Hpos (output_container (outside st)) [stream t] compress) as Hone.
  unfold loop_body, direct_write, logged_write. simpl.
  destruct (Z.gtb_spec (meta_size t) max_memory_usage); [|lia].
  destruct (add_streamed_objects_to_pack _ _ _) as [[|n [|n' rest]] c];
    simpl in *; try lia.
  by exists n.
Qed.

(** C9, amended. An object whose declared size is exactly the budget is
    buffered, with no flush and no direct write, if and only if the
    tracked [cache_size] is zero (the declared sizes being non-negative);
    this is the case whenever the cache is empty, and a cache whose
    tracked size is not zero is flushed first. *)
Theorem exact_budget_object (w : world Container) (triplets : list triplet)
    (st : locals) (t : triplet) :
  (∀ t', t' ∈ triplets → 0 ≤ meta_size t') →
  reaches w triplets st →
  meta_size t = max_memory_usage →
  (loop_body st t = Ok (buffer st t) ↔ cache_size st = 0)
  ∧ (content_cache st = [] → loop_body st t = Ok (buffer st t))
  ∧ (cache_size st ≠ 0 → loop_body st t = Ok (buffer (flush st) t)).
Proof.
  intros Hnonneg (pre & post & -> & Hrun) Ht.
  assert (0 ≤ cache_size st ∧ (content_cache st = [] → cache_size st = 0))
    as [Hge Hempty].
  { assert (∀ t', t' ∈ pre → 0 ≤ meta_size t') as Hpre.
    { intros t' Ht'. apply Hnonneg, elem_of_app. by left. }
    clear Hnonneg. revert Hpre.
    cut ((∀ t', t' ∈ pre → 0 ≤ meta_size t') →
         0 ≤ cache_size st ∧ (content_cache st = [] → cache_size st = 0)); [done|].
    revert pre st Hrun.
    apply (loop_invariant (λ st pre,
      (∀ t', t' ∈ pre → 0 ≤ meta_size t') →
      0 ≤ cache_size st ∧ (content_cache st = [] → cache_size st = 0))); [done|].
    intros st pre t0 st' IH Hb Hpre.
    destruct IH as [Hge Hempty].
    { intros t' Ht'. apply Hpre, elem_of_app. by left. }
    assert (0 ≤ meta_size t0) as Ht0.
    { apply Hpre, elem_of_app. right. by apply list_elem_of_singleton. }
    apply loop_body_cases in Hb
      as [[Hgt Hd] | [(Hle & Hgt & ->) | (Hle & Hle2 & ->)]].
    - apply direct_write_inv in Hd as (n & rest & _ & ->). by simpl.
    - simpl. split; [lia|done].
    - simpl. split; [lia|]. intros Hnil. by apply setitem_nonempty in Hnil. }
  assert (cache_size st = 0 → loop_body st t = Ok (buffer st t)) as Hzero.
  { intros Hz. unfold loop_body.
    destruct (Z.gtb_spec (meta_size t) max_memory_usage); [lia|].
    by destruct (Z.gtb_spec (cache_size st + meta_size t) max_memory_usage); [lia|]. }
  assert (cache_size st ≠ 0 → loop_body st t = Ok (buffer (flush st) t)) as Hpos.
  { intros Hnz. unfold loop_body.
    destruct (Z.gtb_spec (meta_size t) max_memory_usage); [lia|].
    by destruct (Z.gtb_spec (cache_size st + meta_size t) max_memory_usage); [|lia]. }
  split; [|split]; [|by auto|done].
  split; [|done].
  intros Hbuf. destruct (decide (cache_size st = 0)) as [|Hnz]; [done|].
  rewrite (Hpos Hnz) in Hbuf.
  destruct (flush_then_buffer_differs st t). congruence.
Qed.

(** ** The groups *)

(** C3, amended. For a group that yields no triplet the container is
    called exactly once, by the final flush, with an empty list of
    streams; the group has no pair of hashkeys and its mapping is
    empty. *)
Theorem empty_group_one_empty_call (w : world Container) :
  ∃ st new_hashkeys,
    export_group w [] = Ok st
    ∧ pack_calls (outside st) = pack_calls w ++ [Call [] [] compress new_hashkeys]
    ∧ zip (old_obj_hashkeys st) (new_obj_hashkeys st) = []
    ∧ group_mapping st = ∅.
Proof. by eexists _, _. Qed.

(** C10. Called with no group at all, the function does not return an
    empty mapping: [old_new_obj_hashkey_mapping] was never assigned and
    the [return] raises. *)
Theorem no_group_unbound_mapping (c : Container) :
  export_from_pack_grouped c [] = Raise UnboundLocalError.
Proof. reflexivity. Qed.

(** ** The batches *)

Lemma of_pairs_last (ps : list (hashkey * hashkey)) (i : nat) (k n : hashkey) :
  ps !! i = Some (k, n) →
  (∀ j n', (i < j)%nat → ps !! j ≠ Some (k, n')) →
  PyDict.of_pairs ps !! k = Some n.
Proof.
  induction ps as [|[k0 n0] ps IH] using rev_ind; [done|].
  intros Hi Hlast. unfold PyDict.of_pairs. rewrite foldl_snoc. simpl.
  fold (PyDict.of_pairs ps).
  assert ((ps ++ [(k0, n0)]) !! length ps = Some (k0, n0)) as Hend.
  { rewrite lookup_app_r by lia. by rewrite Nat.sub_diag. }
  pose proof (lookup_lt_Some _ _ _ Hi) as Hlt.
  rewrite length_app in Hlt. simpl in Hlt.
  destruct (decide (i = length ps)) as [->|Hne].
  - rewrite Hend in Hi. injection Hi as -> ->. apply lookup_insert_eq.
  - assert (i < length ps)%nat as Hlt' by lia.
    rewrite lookup_app_l in Hi by done.
    destruct (decide (k0 = k)) as [->|Hk].
    { destruct (Hlast (length ps) n0 Hlt' Hend). }
    rewrite lookup_insert_ne by done. apply IH; [done|].
    intros j n' Hj Hps. apply (Hlast j n' Hj).
    rewrite lookup_app_l; [done|]. by eapply lookup_lt_Some.
Qed.

Lemma consistent_call_mono (pre more : list triplet) (c : call) :
  consistent_call pre c → consistent_call (pre ++ more) c.
Proof.
  intros (Hl1 & Hl2 & Hpos). split; [done|]. split; [done|].
  intros i k Hk. destruct (Hpos i k Hk) as (t & Ht & Hrest).
  exists t. split; [|done]. apply elem_of_app. by left.
Qed.

Lemma zip_calls (cs : list call) :
  Forall (λ c, length (call_new_hashkeys c) = length (call_old_hashkeys c)) cs →
  zip (concat (call_old_hashkeys <$> cs)) (concat (call_new_hashkeys <$> cs))
  = cs ≫= λ c, zip (call_old_hashkeys c) (call_new_hashkeys c).
Proof.
  induction 1 as [|c cs Hc _ IH]; [done|].
  rewrite !fmap_cons, !concat_cons, bind_cons.
  rewrite zip_with_app by done. by rewrite IH.
Qed.

Lemma batches_more (w : world Container) (pre more : list triplet) (st : locals) :
  batches_in_step w pre st → batches_in_step w (pre ++ more) st.
Proof.
  intros (Hcache & cs & Hlog & Hcs & Hold & Hnew). split.
  - intros k b Hkb. destruct (Hcache k b Hkb) as (t & Ht & Hrest).
    exists t. split; [|done]. apply elem_of_app. by left.
  - exists cs. repeat split; try done.
    eapply Forall_impl; [done|]. intros c. apply consistent_call_mono.
Qed.

Lemma batches_flush (w : world Container) (pre : list triplet) (st : locals) :
  positional →
  batches_in_step w pre st → batches_in_step w pre (flush st).
Proof.
  intros Hpos (Hcache & cs & Hlog & Hcs & Hold & Hnew). split.
  - simpl. intros k b Hkb. by apply elem_of_nil in Hkb.
  - unfold flush, logged_write, PyDict.items. simpl.
    set (r := add_streamed_objects_to_pack _ _ _).
    exists (cs ++ [Call (content_cache st).*1 (content_cache st).*2 compress r.1]).
    rewrite Hlog, Hold, Hnew, !fmap_app, !concat_app. simpl.
    rewrite !app_nil_r, app_assoc. repeat split.
    apply Forall_app. split; [done|]. apply Forall_singleton.
    split; [|split]; simpl.
    + by rewrite !length_fmap.
    + unfold r. rewrite Hpos. by rewrite !length_fmap.
    + intros i k ([k' b] & -> & Hi)%list_lookup_fmap_Some_1.
      destruct (Hcache k' b) as (t & Ht & Hkey & Hcontent).
      { by eapply list_elem_of_lookup_2. }
      exists t. repeat split; [done..|].
      rewrite Hcontent. by apply (list_lookup_fmap_Some_2 snd _ _ (k', b)).
Qed.

Lemma batches_buffer (w : world Container) (pre : list triplet)
    (st : locals) (t : triplet) :
  batches_in_step w pre st → batches_in_step w (pre ++ [t]) (buffer st t).
Proof.
  intros Hst. apply (batches_more w pre [t]) in Hst.
  destruct Hst as (Hcache & Hcalls). split; [|done].
  simpl. intros k b [Hkb|[= -> ->]]%setitem_elem; [by apply Hcache|].
  exists t. repeat split. apply elem_of_app. right. by apply list_elem_of_singleton.
Qed.

Lemma batches_direct_write (w : world Container) (pre : list triplet)
    (st st' : locals) (t : triplet) :
  positional →
  direct_write st t = Ok st' →
  batches_in_step w pre st → batches_in_step w (pre ++ [t]) st'.
Proof.
  intros Hpos Hd Hst. apply (batches_more w pre [t]) in Hst.
  destruct Hst as (Hcache & cs & Hlog & Hcs & Hold & Hnew).
  apply direct_write_inv in Hd as (n & rest & Hret & ->).
  pose proof (Hpos (output_container (outside st)) [stream t] compress) as Hone.
  rewrite Hret in Hone. destruct rest; [|done].
  split; [done|]. unfold logged_write. simpl. rewrite Hret.
  exists (cs ++ [Call [old_obj_hashkey t] [stream t] compress [n]]).
  rewrite Hlog, Hold, Hnew, !fmap_app, !concat_app. simpl.
  rewrite app_assoc. repeat split.
  apply Forall_app. split; [done|]. apply Forall_singleton.
  split; [done|]. split; [done|]. simpl.
  intros [|i] k Hk; [|done]. injection Hk as <-.
  exists t. repeat split. apply elem_of_app. right. by apply list_elem_of_singleton.
Qed.

Lemma loop_body_returns (st : locals) (t : triplet) :
  positional → ∃ st', loop_body st t = Ok st'.
Proof.
  intros Hpos. unfold loop_body.
  destruct (meta_size t >? max_memory_usage).
  - pose proof (Hpos (output_container (outside st)) [stream t] compress) as Hone.
    unfold direct_write, logged_write. simpl.
    destruct (add_streamed_objects_to_pack _ _ _).1; [done|eauto].
  - destruct (cache_size st + meta_size t >? max_memory_usage); eauto.
Qed.

Lemma for_triplets_returns (st : locals) (triplets : list triplet) :
  positional → ∃ st', for_triplets st triplets = Ok st'.
Proof.
  intros Hpos. revert st. induction triplets as [|t triplets IH]; intros st.
  - by exists st.
  - simpl. destruct (loop_body_returns st t Hpos) as [st1 ->]. simpl. apply IH.
Qed.

(** C7. With a container that returns one hashkey for each stream, a
    group is processed to its end, and every call made to the container,
    by a flush in the loop, by a direct write or by the final flush, is
    consistent: the list of old hashkeys and the list of streams have the
    same length and the stream at position [i] is the content that came
    with the old hashkey at position [i]. The old and the new hashkeys of
    the calls, taken in order, are [old_obj_hashkeys] and
    [new_obj_hashkeys], which have the same length, so that zipping them
    pairs every old hashkey with the hashkey returned at its position. *)
Theorem batches_paired_by_position (w : world Container)
    (triplets : list triplet) :
  positional →
  ∃ st cs,
    export_group w triplets = Ok st
    ∧ pack_calls (outside st) = pack_calls w ++ cs
    ∧ Forall (consistent_call triplets) cs
    ∧ old_obj_hashkeys st = concat (call_old_hashkeys <$> cs)
    ∧ new_obj_hashkeys st = concat (call_new_hashkeys <$> cs)
    ∧ length (old_obj_hashkeys st) = length (new_obj_hashkeys st)
    ∧ zip (old_obj_hashkeys st) (new_obj_hashkeys st)
      = cs ≫= λ c, zip (call_old_hashkeys c) (call_new_hashkeys c).
Proof.
  intros Hpos. unfold export_group.
  destruct (for_triplets_returns (enter w) triplets Hpos) as [st Hrun].
  rewrite Hrun. simpl.
  assert (batches_in_step w triplets st) as Hst.
  { revert triplets st Hrun. apply loop_invariant.
    - split; [intros k b Hkb; by apply elem_of_nil in Hkb|].
      exists []. by rewrite app_nil_r.
    - intros st pre t st' Hst Hb.
      apply loop_body_cases in Hb
        as [[Hgt Hd] | [(Hle & Hgt & ->) | (Hle & Hle2 & ->)]].
      + by eapply batches_direct_write.
      + by apply batches_buffer, batches_flush.
      + by apply batches_buffer. }
  apply (batches_flush _ _ _ Hpos) in Hst as (_ & cs & Hlog & Hcs & Hold & Hnew).
  exists (flush st), cs. split; [done|]. split; [done|]. split; [done|].
  split; [done|]. split; [done|].
  assert (Forall (λ c, length (call_new_hashkeys c)
                       = length (call_old_hashkeys c)) cs) as Hlens.
  { eapply Forall_impl; [done|]. by intros c (_ & ? & _). }
  rewrite Hold, Hnew. split; [|by apply zip_calls].
  apply (f_equal length) in Hold, Hnew. clear -Hlens.
  induction Hlens as [|c cs Hc _ IH]; [done|].
  rewrite !fmap_cons, !concat_cons, !length_app. lia.
Qed.

(** C5, amended. Pairing the old hashkeys with the new ones never fails:
    the mapping of a group is built with [dict(zip(...))], and when an
    old hashkey has been recorded more than once the pair recorded last
    silently replaces the earlier ones. *)
Theorem pairing_keeps_last_pair (st : locals) (i : nat) (k n : hashkey) :
  zip (old_obj_hashkeys st) (new_obj_hashkeys st) !! i = Some (k, n) →
  (∀ j n', (i < j)%nat →
     zip (old_obj_hashkeys st) (new_obj_hashkeys st) !! j ≠ Some (k, n')) →
  group_mapping st !! k = Some n.
Proof. apply of_pairs_last. Qed.

End Driver.

Arguments old_obj_hashkeys {Container} _.
Arguments new_obj_hashkeys {Container} _.
Arguments content_cache {Container} _.
Arguments cache_size {Container} _.
Arguments outside {Container} _.
Arguments pack_old_obj_hashkeys {Container} _.
Arguments pack_new_obj_hashkeys {Container} _.
Arguments pack_outside {Container} _.

(** ** Runs of the driver *)

Section Scenarios.

Context `{PackWriter Container}.
Variable compress : bool.

(** C6. With a budget of 100 and one group of three objects A, B and C
    of declared sizes 30, 30 and 50: after A the cache holds A and
    [cache_size] is 30; after B it holds A and B and [cache_size] is 60,
    and the container has not been called; on C the cache is flushed as
    the one batch A, B, then C is buffered and [cache_size] is 50; the
    final flush writes the batch C. The container is called exactly
    twice, with the batches A, B and C. *)
Theorem scenario_A (w : world Container) (a b c : bytes) :
  ∃ st3 st4 n1 n2,
    for_triplets compress 100 (enter w) [Triplet "A" a 30]
      = Ok {| old_obj_hashkeys := []; new_obj_hashkeys := [];
              content_cache := [("A", a)]; cache_size := 30; outside := w |}
    ∧ for_triplets compress 100 (enter w) [Triplet "A" a 30; Triplet "B" b 30]
      = Ok {| old_obj_hashkeys := []; new_obj_hashkeys := [];
              content_cache := [("A", a); ("B", b)]; cache_size := 60;
              outside := w |}
    ∧ for_triplets compress 100 (enter w)
        [Triplet "A" a 30; Triplet "B" b 30; Triplet "C" c 50] = Ok st3
    ∧ content_cache st3 = [("C", c)]
    ∧ cache_size st3 = 50
    ∧ pack_calls (outside st3)
      = pack_calls w ++ [Call ["A"; "B"] [a; b] compress n1]
    ∧ export_group compress 100 w
        [Triplet "A" a 30; Triplet "B" b 30; Triplet "C" c 50] = Ok st4
    ∧ pack_calls (outside st4)
      = pack_calls w ++ [Call ["A"; "B"] [a; b] compress n1;
                         Call ["C"] [c] compress n2]
    ∧ content_cache st4 = [].
Proof.
  eexists _, _, _, _. repeat split; try reflexivity.
  unfold export_group. simpl. by rewrite <- app_assoc.
Qed.

(** C1, on the code. Two groups, the first with the object A and the
    second with the object B, budget 100: the function returns, the
    object A was written to the container, and the mapping returned has
    no entry for A. *)
Theorem only_last_group_returned (c : Container) (a b : bytes) :
  ∃ w m n,
    export_from_pack_grouped compress 100 c
      [[Triplet "A" a 30]; [Triplet "B" b 30]] = Ok (w, m)
    ∧ Call ["A"] [a] compress n ∈ pack_calls w
    ∧ m !! "A" = None.
Proof.
  eexists _, _, _. split; [reflexivity|]. split.
  - simpl. apply elem_of_cons. by left.
  - unfold group_mapping. simpl.
    destruct (add_streamed_objects_to_pack _ [b] compress).1 as [|n rest]; [done|].
    unfold PyDict.of_pairs. simpl. by rewrite lookup_insert_ne.
Qed.

End Scenarios.

(** ** Runs with the counting container *)

Lemma counting_writer_positional : positional (H := counting_writer).
Proof.
  intros c stream_list z. unfold add_streamed_objects_to_pack, counting_writer.
  simpl. by rewrite length_fmap, length_seq.
Qed.

(** An empty group is not free of calls: the final flush calls the
    container with an empty list of streams. *)
Lemma empty_group_still_calls_container :
  ∃ st, export_group false 100 (World 0%nat []) [] = Ok st
        ∧ pack_calls (outside st) = [Call [] [] false []]
        ∧ length (pack_calls (outside st)) ≠ 0%nat.
Proof. eexists. repeat split. by simpl. Qed.

(** The same old hashkey twice in a group, declared sizes equal to the
    lengths: the second item replaces the buffer of the first and
    [cache_size] counts both. *)
Lemma repeated_hashkey_counted_twice :
  ∃ st, reaches false 100 (World 0%nat []) [object "A" 30; object "A" 30] st
        ∧ content_cache st = [("A", zeros 30)]
        ∧ cache_size st = 60
        ∧ buffered_size (content_cache st) = 30
        ∧ cache_size st ≠ buffered_size (content_cache st).
Proof.
  eexists. split.
  { exists [object "A" 30; object "A" 30], []. split; reflexivity. }
  repeat split; by vm_compute.
Qed.

(** The same old hashkey written directly twice in one group: the
    function returns normally and the mapping holds the second new
    hashkey only. *)
Lemma repeated_old_hashkey_no_error :
  ∃ w m,
    export_from_pack_grouped false 100 0%nat [[object "X" 500; object "X" 500]]
      = Ok (w, m)
    ∧ call_old_hashkeys <$> pack_calls w = [["X"]; ["X"]; []]
    ∧ call_new_hashkeys <$> pack_calls w = [["new-0"]; ["new-1"]; []]
    ∧ m !! "X" = Some "new-1".
Proof. eexists _, _. repeat split. Qed.

(** A cache that holds an object of size zero is not empty, and an
    object of exactly the budget is buffered on top of it, with no
    flush. *)
Lemma zero_sized_cache_not_flushed :
  ∃ st, reaches false 100 (World 0%nat []) [object "Z" 0; object "E" 100] st
        ∧ content_cache st ≠ []
        ∧ meta_size (object "E" 100) = 100
        ∧ loop_body false 100 st (object "E" 100)
          = Ok (buffer st (object "E" 100)).
Proof.
  eexists. split.
  { exists [object "Z" 0], [object "E" 100]. split; reflexivity. }
  repeat split; by vm_compute.
Qed.

(** The theorems above at concrete groups. *)

Lemma cache_size_within_budget_witness :
  0 < 100
  ∧ reaches false 100 (World 0%nat [])
      [object "A" 30; object "B" 30; object "C" 50]
      (buffer (buffer (enter (World 0%nat [])) (object "A" 30)) (object "B" 30))
  ∧ cache_size
      (buffer (buffer (enter (World 0%nat [])) (object "A" 30)) (object "B" 30))
    ≤ 100
  ∧ cache_size
      (flush false
         (buffer (buffer (enter (World 0%nat [])) (object "A" 30))
            (object "B" 30)))
    ≤ 100
  ∧ ∀ k b, (k, b) ∈ [("A", zeros 30); ("B", zeros 30)] →
      ∃ t, t ∈ [object "A" 30; object "B" 30; object "C" 50]
           ∧ old_obj_hashkey t = k ∧ stream t = b ∧ meta_size t ≤ 100.
Proof.
  assert (reaches false 100 (World 0%nat [])
            [object "A" 30; object "B" 30; object "C" 50]
            (buffer (buffer (enter (World 0%nat [])) (object "A" 30))
               (object "B" 30))) as Hreach.
  { exists [object "A" 30; object "B" 30], [object "C" 50]. split; reflexivity. }
  split; [lia|]. split; [exact Hreach|].
  apply (cache_size_within_budget false 100 _ _ _ ltac:(lia) Hreach).
Defined.

Lemma cache_size_is_buffered_size_witness :
  cache_size
    (buffer (buffer (enter (World 0%nat [])) (object "A" 30)) (object "B" 30))
  = buffered_size [("A", zeros 30); ("B", zeros 30)].
Proof.
  apply (cache_size_is_buffered_size false 100 (World 0%nat [])
           [object "A" 30; object "B" 30; object "C" 50]).
  - intros t Ht. repeat (apply elem_of_cons in Ht as [->|Ht]); try reflexivity.
    by apply elem_of_nil in Ht.
  - apply (bool_decide_unpack _). by vm_compute.
  - exists [object "A" 30; object "B" 30], [object "C" 50]. split; reflexivity.
Defined.

Lemma batches_paired_by_position_witness :
  ∃ st cs,
    export_group false 100 (World 0%nat [])
      [object "A" 30; object "B" 30; object "X" 500; object "C" 50] = Ok st
    ∧ pack_calls (outside st) = [] ++ cs
    ∧ Forall (consistent_call
                [object "A" 30; object "B" 30; object "X" 500; object "C" 50]) cs
    ∧ old_obj_hashkeys st = concat (call_old_hashkeys <$> cs)
    ∧ new_obj_hashkeys st = concat (call_new_hashkeys <$> cs)
    ∧ length (old_obj_hashkeys st) = length (new_obj_hashkeys st)
    ∧ zip (old_obj_hashkeys st) (new_obj_hashkeys st)
      = cs ≫= λ c, zip (call_old_hashkeys c) (call_new_hashkeys c).
Proof.
  apply (batches_paired_by_position false 100 (World 0%nat [])
           [object "A" 30; object "B" 30; object "X" 500; object "C" 50]
           counting_writer_positional).
Defined.

Lemma direct_write_leaves_cache_witness :
  meta_size (object "X" 500) > 100
  ∧ ∃ st', loop_body false 100
             (buffer (enter (World 0%nat [])) (object "A" 30)) (object "X" 500)
           = Ok st'
           ∧ content_cache st' = [("A", zeros 30)]
           ∧ cache_size st' = 30.
Proof.
  split; [reflexivity|].
  destruct (direct_write_leaves_cache false 100
              (buffer (enter (World 0%nat [])) (object "A" 30)) (object "X" 500)
              counting_writer_positional ltac:(reflexivity))
    as (n & Hn & Hbody).
  eexists. split; [exact Hbody|]. split; reflexivity.
Defined.

Lemma exact_budget_object_witness :
  meta_size (object "E" 100) = 100
  ∧ loop_body false 100 (enter (World 0%nat [])) (object "E" 100)
    = Ok (buffer (enter (World 0%nat [])) (object "E" 100)).
Proof.
  split; [reflexivity|].
  apply (exact_budget_object false 100 (World 0%nat []) [object "E" 100]
           (enter (World 0%nat [])) (object "E" 100)).
  - intros t Ht. repeat (apply elem_of_cons in Ht as [->|Ht]); try (simpl; lia).
    by apply elem_of_nil in Ht.
  - exists [], [object "E" 100]. split; reflexivity.
  - reflexivity.
  - reflexivity.
Defined.

Lemma pairing_keeps_last_pair_witness :
  group_mapping
    {| old_obj_hashkeys := ["X"; "X"]; new_obj_hashkeys := ["new-0"; "new-1"];
       content_cache := []; cache_size := 0; outside := World 2%nat [] |}
    !! "X" = Some "new-1".
Proof.
  apply (pairing_keeps_last_pair _ 1).
  - reflexivity.
  - intros [|[|j]] n' Hj; [lia|lia|]. by simpl.
Defined.

(** ** What the function raises and what it returns *)

Section Outcome.

Context `{PackWriter Container}.
Variable compress : bool.
Variable max_memory_usage : Z.

Lemma loop_body_raises (st : @locals Container) (t : triplet) (e : exn) :
  loop_body compress max_memory_usage st t = Raise e →
  e = IndexError ∧ meta_size t > max_memory_usage.
Proof.
  unfold loop_body, direct_write.
  destruct (Z.gtb_spec (meta_size t) max_memory_usage).
  - destruct (logged_write _ _ _ _).1; [|done]. intros [= <-]. split; [done|lia].
  - by destruct (_ >? _).
Qed.

Lemma for_triplets_raises (st : @locals Container) (triplets : list triplet)
    (e : exn) :
  for_triplets compress max_memory_usage st triplets = Raise e →
  e = IndexError ∧ ∃ t, t ∈ triplets ∧ meta_size t > max_memory_usage.
Proof.
  revert st. induction triplets as [|t triplets IH]; intros st; simpl; [done|].
  destruct (loop_body _ _ st t) as [st'|e'] eqn:Hb; simpl.
  - intros [-> (t' & Ht' & Hgt)]%IH. split; [done|].
    exists t'. split; [by apply elem_of_cons; right | done].
  - intros [= ->]. apply loop_body_raises in Hb as [-> Hgt]. split; [done|].
    exists t. split; [by apply elem_of_cons; left | done].
Qed.

Lemma export_group_raises (w : world Container) (triplets : list triplet)
    (e : exn) :
  export_group compress max_memory_usage w triplets = Raise e →
  e = IndexError ∧ ∃ t, t ∈ triplets ∧ meta_size t > max_memory_usage.
Proof.
  unfold export_group.
  destruct (for_triplets _ _ _ triplets) as [st|e'] eqn:Hrun; simpl; [done|].
  intros [= ->]. by apply for_triplets_raises in Hrun.
Qed.

(** Once a group has been processed the mapping is bound, and the only
    exception left is the one of a direct write. *)
Lemma for_groups_bound (w : world Container) (m : gmap hashkey hashkey)
    (groups : list (list triplet)) :
  match for_groups compress max_memory_usage w (Some m) groups with
  | Ok r => is_Some r.2
  | Raise e =>
      e = IndexError
      ∧ ∃ g t, g ∈ groups ∧ t ∈ g ∧ meta_size t > max_memory_usage
  end.
Proof.
  revert w m. induction groups as [|g groups IH]; intros w m; simpl; [by eexists|].
  destruct (export_group _ _ w g) as [st|e] eqn:Hg; simpl.
  - specialize (IH (outside st) (group_mapping st)).
    destruct (for_groups _ _ _ _ groups) as [r|e]; [done|].
    destruct IH as [-> (g' & t & Hg' & Ht & Hgt)]. split; [done|].
    exists g', t. split; [by apply elem_of_cons; right | done].
  - apply export_group_raises in Hg as [-> (t & Ht & Hgt)]. split; [done|].
    exists g, t. split; [by apply elem_of_cons; left | done].
Qed.

(** X1. [export_from_pack_grouped] raises [UnboundLocalError] if and
    only if it is given no group at all, whatever the container does. *)
Theorem unbound_mapping_iff_no_group (c : Container)
    (groups : list (list triplet)) :
  export_from_pack_grouped compress max_memory_usage c groups
    = Raise UnboundLocalError
  ↔ groups = [].
Proof.
  split; [|by intros ->].
  destruct groups as [|g groups]; [done|].
  unfold export_from_pack_grouped. simpl.
  destruct (export_group _ _ _ g) as [st|e] eqn:Hg; simpl.
  - pose proof (for_groups_bound (outside st) (group_mapping st) groups) as Hb.
    destruct (for_groups _ _ _ _ groups) as [r|e]; simpl.
    + by destruct Hb as [m ->].
    + destruct Hb as [-> _]. done.
  - apply export_group_raises in Hg as [-> _]. done.
Qed.

(** X2. When no object of any group is bigger than the budget and there
    is at least one group, [export_from_pack_grouped] returns normally
    with any container, also with one that returns too few or too many
    hashkeys: the only place that can raise is the [[0]] of a direct
    write. *)
Theorem no_oversized_object_no_exception (c : Container)
    (groups : list (list triplet)) :
  groups ≠ [] →
  (∀ g t, g ∈ groups → t ∈ g → meta_size t ≤ max_memory_usage) →
  ∃ w m, export_from_pack_grouped compress max_memory_usage c groups = Ok (w, m).
Proof.
  intros Hne Hsmall. destruct groups as [|g groups]; [done|].
  unfold export_from_pack_grouped. simpl.
  destruct (export_group _ _ _ g) as [st|e] eqn:Hg; simpl.
  - pose proof (for_groups_bound (outside st) (group_mapping st) groups) as Hb.
    destruct (for_groups _ _ _ _ groups) as [[w o]|e]; simpl in *.
    + destruct Hb as [m ->]. by eexists _, _.
    + destruct Hb as [_ (g' & t & Hg' & Ht & Hgt)].
      assert (meta_size t ≤ max_memory_usage); [|lia].
      apply (Hsmall g'); [by apply elem_of_cons; right | done].
  - apply export_group_raises in Hg as [_ (t & Ht & Hgt)].
    assert (meta_size t ≤ max_memory_usage); [|lia].
    apply (Hsmall g); [by apply elem_of_cons; left | done].
Qed.

End Outcome.

(** ** What a group writes *)

Section Coverage.

Context `{PackWriter Container}.
Variable compress : bool.
Variable max_memory_usage : Z.

Lemma setitem_keys {V} (d : PyDict.t V) (k k' : hashkey) (v : V) :
  k' ∈ (PyDict.setitem d k v).*1 ↔ k' ∈ d.*1 ∨ k' = k.
Proof.
  induction d as [|[k0 v0] d IH]; simpl.
  - rewrite list_elem_of_singleton, elem_of_nil. intuition (subst; auto).
  - case_decide as Hk; simpl; rewrite !elem_of_cons; [intuition (subst; auto)|].
    rewrite IH. intuition (subst; auto).
Qed.

Lemma of_pairs_is_Some (ps : list (hashkey * hashkey)) (k : hashkey) :
  is_Some (PyDict.of_pairs ps !! k) ↔ k ∈ ps.*1.
Proof.
  induction ps as [|[k0 n0] ps IH] using rev_ind.
  - unfold PyDict.of_pairs. simpl. rewrite lookup_empty, elem_of_nil.
    split; [by intros []%is_Some_None | done].
  - unfold PyDict.of_pairs. rewrite foldl_snoc, fmap_app. simpl.
    fold (PyDict.of_pairs ps).
    rewrite lookup_insert_is_Some, elem_of_app, list_elem_of_singleton, IH.
    destruct (decide (k0 = k)); intuition (subst; auto).
Qed.

Lemma for_groups_app (w : world Container) (m : option (gmap hashkey hashkey))
    (groups : list (list triplet)) (g : list triplet) :
  for_groups compress max_memory_usage w m (groups ++ [g])
  = (for_groups compress max_memory_usage w m groups ≫= λ r,
     export_group compress max_memory_usage r.1 g ≫= λ st,
     Ok (outside st, Some (group_mapping st))).
Proof.
  revert w m. induction groups as [|g0 groups IH]; intros w m; simpl.
  - by destruct (export_group _ _ w g).
  - destruct (export_group _ _ w g0) as [st|e]; simpl; [apply IH | done].
Qed.

Lemma export_group_returns (w : world Container) (triplets : list triplet) :
  positional → ∃ st, export_group compress max_memory_usage w triplets = Ok st.
Proof.
  intros Hpos. unfold export_group.
  destruct (for_triplets_returns compress max_memory_usage (enter w) triplets Hpos)
    as [st ->].
  by eexists.
Qed.

Lemma for_groups_returns (w : world Container)
    (m : option (gmap hashkey hashkey)) (groups : list (list triplet)) :
  positional → ∃ r, for_groups compress max_memory_usage w m groups = Ok r.
Proof.
  intros Hpos. revert w m. induction groups as [|g groups IH]; intros w m; simpl.
  - by eexists.
  - destruct (export_group_returns w g Hpos) as [st ->]. simpl. apply IH.
Qed.

(** The old hashkeys recorded or waiting in the cache are those of the
    items consumed so far. *)
Lemma for_triplets_keys (w : world Container) (triplets : list triplet)
    (st : @locals Container) :
  for_triplets compress max_memory_usage (enter w) triplets = Ok st →
  ∀ k, k ∈ old_obj_hashkeys st ∨ k ∈ (content_cache st).*1
       ↔ k ∈ old_obj_hashkey <$> triplets.
Proof.
  revert triplets st.
  apply (loop_invariant compress max_memory_usage (λ st pre,
    ∀ k, k ∈ old_obj_hashkeys st ∨ k ∈ (content_cache st).*1
         ↔ k ∈ old_obj_hashkey <$> pre)).
  - intros k. simpl. rewrite !elem_of_nil. tauto.
  - intros st pre t st' IH Hb k.
    rewrite fmap_app, elem_of_app, <- IH. simpl. rewrite list_elem_of_singleton.
    apply loop_body_cases in Hb
      as [[Hgt Hd] | [(Hle & Hgt & ->) | (Hle & Hle2 & ->)]].
    + apply direct_write_inv in Hd as (n & rest & _ & ->). simpl.
      rewrite elem_of_app, list_elem_of_singleton. intuition (subst; auto).
    + simpl. unfold PyDict.items.
      rewrite elem_of_app, list_elem_of_singleton. intuition (subst; auto).
    + simpl. rewrite setitem_keys. intuition (subst; auto).
Qed.

Lemma export_group_keys (w : world Container) (triplets : list triplet)
    (st : @locals Container) :
  export_group compress max_memory_usage w triplets = Ok st →
  ∀ k, k ∈ old_obj_hashkeys st ↔ k ∈ old_obj_hashkey <$> triplets.
Proof.
  unfold export_group.
  destruct (for_triplets _ _ _ triplets) as [st0|e] eqn:Hrun; simpl; [|done].
  intros [= <-] k. rewrite <- (for_triplets_keys w triplets st0 Hrun k).
  simpl. unfold PyDict.items. by rewrite elem_of_app.
Qed.

Lemma export_group_batches (w : world Container) (triplets : list triplet)
    (st : @locals Container) :
  positional →
  export_group compress max_memory_usage w triplets = Ok st →
  batches_in_step w triplets st.
Proof.
  intros Hpos. unfold export_group.
  destruct (for_triplets _ _ _ triplets) as [st0|e] eqn:Hrun; simpl; [|done].
  intros [= <-]. apply batches_flush; [done|].
  revert triplets st0 Hrun. apply loop_invariant.
  - split; [intros k b Hkb; by apply elem_of_nil in Hkb|].
    exists []. by rewrite app_nil_r.
  - intros st pre t st' Hst Hb.
    apply loop_body_cases in Hb
      as [[Hgt Hd] | [(Hle & Hgt & ->) | (Hle & Hle2 & ->)]].
    + by eapply batches_direct_write.
    + by apply batches_buffer, batches_flush.
    + by apply batches_buffer.
Qed.

Lemma batches_same_length (w : world Container) (triplets : list triplet)
    (st : @locals Container) :
  batches_in_step w triplets st →
  length (old_obj_hashkeys st) = length (new_obj_hashkeys st).
Proof.
  intros (_ & cs & _ & Hcs & -> & ->).
  induction Hcs as [|c cs (_ & Hc & _) _ IH]; [done|].
  rewrite !fmap_cons, !concat_cons, !length_app. lia.
Qed.

(** X3. With a container that returns one hashkey for each stream,
    [export_from_pack_grouped] on a non-empty list of groups returns a
    mapping whose keys are exactly the old hashkeys of the last group:
    every object of the last group has an entry, and no object of an
    earlier group has one unless the last group holds it too. *)
Theorem mapping_is_last_group (c : Container) (groups : list (list triplet))
    (g : list triplet) :
  positional →
  ∃ w m,
    export_from_pack_grouped compress max_memory_usage c (groups ++ [g])
      = Ok (w, m)
    ∧ ∀ k, is_Some (m !! k) ↔ k ∈ old_obj_hashkey <$> g.
Proof.
  intros Hpos. unfold export_from_pack_grouped. rewrite for_groups_app.
  destruct (for_groups_returns (World c []) None groups Hpos) as [r ->]. simpl.
  destruct (export_group_returns r.1 g Hpos) as [st Hst]. rewrite Hst. simpl.
  eexists _, _. split; [done|]. intros k.
  unfold group_mapping. rewrite of_pairs_is_Some, fst_zip.
  - by apply (export_group_keys r.1).
  - apply export_group_batches in Hst; [|done].
    apply batches_same_length in Hst. lia.
Qed.

(** The objects written so far and those waiting in the cache are,
    together, the objects consumed so far. *)
Lemma for_triplets_written (w : world Container) (triplets : list triplet)
    (st : @locals Container) :
  NoDup (old_obj_hashkey <$> triplets) →
  for_triplets compress max_memory_usage (enter w) triplets = Ok st →
  ∃ cs, pack_calls (outside st) = pack_calls w ++ cs
        ∧ (cs ≫= λ c, zip (call_old_hashkeys c) (call_stream_list c))
          ++ content_cache st
          ≡ₚ (λ t, (old_obj_hashkey t, stream t)) <$> triplets.
Proof.
  intros Hnodup Hrun. revert Hnodup. revert triplets st Hrun.
  apply (loop_invariant compress max_memory_usage (λ st pre,
    NoDup (old_obj_hashkey <$> pre) →
    ∃ cs, pack_calls (outside st) = pack_calls w ++ cs
          ∧ (cs ≫= λ c, zip (call_old_hashkeys c) (call_stream_list c))
            ++ content_cache st
            ≡ₚ (λ t, (old_obj_hashkey t, stream t)) <$> pre)).
  - intros _. exists []. by rewrite app_nil_r.
  - intros st pre t st' IH Hb Hnodup.
    rewrite fmap_app in Hnodup. apply NoDup_app in Hnodup as (Hnodup & Hfresh & _).
    destruct (IH Hnodup) as (cs & Hlog & Hperm). rewrite fmap_app. simpl.
    assert (old_obj_hashkey t ∉ (content_cache st).*1) as Hnew.
    { intros Hin. apply (Hfresh (old_obj_hashkey t)); [|by apply list_elem_of_singleton].
      assert ((old_obj_hashkey t, ()) ∈
              (λ p, (p.1, ())) <$>
                ((cs ≫= λ c, zip (call_old_hashkeys c) (call_stream_list c))
                 ++ content_cache st)) as Hin'.
      { rewrite fmap_app. apply elem_of_app. right.
        apply list_elem_of_fmap in Hin as ([k b] & -> & Hin).
        apply list_elem_of_fmap. by exists (k, b). }
      rewrite Hperm in Hin'.
      apply list_elem_of_fmap in Hin' as (p & [= Hp] & Hin').
      apply list_elem_of_fmap in Hin' as (t' & -> & Hin'). simpl in Hp.
      apply list_elem_of_fmap. by exists t'. }
    apply loop_body_cases in Hb
      as [[Hgt Hd] | [(Hle & Hgt & ->) | (Hle & Hle2 & ->)]].
    + apply direct_write_inv in Hd as (n & rest & Hret & ->).
      unfold logged_write. simpl.
      eexists (cs ++ [Call _ _ _ _]). rewrite Hlog, app_assoc. split; [done|].
      rewrite bind_app. simpl. rewrite <- Hperm.
      rewrite <- !app_assoc. apply Permutation_app_head, Permutation_app_comm.
    + unfold flush, logged_write, PyDict.items. simpl.
      eexists (cs ++ [Call _ _ _ _]). rewrite Hlog, app_assoc. split; [done|].
      rewrite bind_app. simpl. rewrite zip_fst_snd, app_nil_r. by rewrite Hperm.
    + simpl. exists cs. split; [done|].
      rewrite setitem_fresh by done. by rewrite app_assoc, Hperm.
Qed.

(** X4. With a container that returns one hashkey for each stream and a
    group in which no old hashkey occurs twice, every object of the
    group is handed to the container exactly once: the (old hashkey,
    stream) pairs of the calls of the group are, up to their order, the
    pairs of the triplets. *)
Theorem every_object_written_once (w : world Container)
    (triplets : list triplet) :
  positional →
  NoDup (old_obj_hashkey <$> triplets) →
  ∃ st cs,
    export_group compress max_memory_usage w triplets = Ok st
    ∧ pack_calls (outside st) = pack_calls w ++ cs
    ∧ (cs ≫= λ c, zip (call_old_hashkeys c) (call_stream_list c))
      ≡ₚ (λ t, (old_obj_hashkey t, stream t)) <$> triplets.
Proof.
  intros Hpos Hnodup. unfold export_group.
  destruct (for_triplets_returns compress max_memory_usage (enter w) triplets Hpos)
    as [st Hrun].
  rewrite Hrun. simpl.
  destruct (for_triplets_written w triplets st Hnodup Hrun) as (cs & Hlog & Hperm).
  eexists _, (cs ++ [Call _ _ _ _]). split; [done|].
  unfold logged_write, PyDict.items. simpl. rewrite Hlog, app_assoc. split; [done|].
  rewrite bind_app. simpl. by rewrite zip_fst_snd, app_nil_r.
Qed.

(** A run of small objects that fit in what is left of the budget is
    buffered whole, in the order of arrival. *)
Lemma for_triplets_all_buffered (triplets : list triplet)
    (st : @locals Container) :
  Forall (λ t, 0 ≤ meta_size t) triplets →
  0 ≤ cache_size st →
  cache_size st + foldr Z.add 0 (meta_size <$> triplets) ≤ max_memory_usage →
  NoDup ((content_cache st).*1 ++ (old_obj_hashkey <$> triplets)) →
  for_triplets compress max_memory_usage st triplets
  = Ok {| old_obj_hashkeys := old_obj_hashkeys st;
          new_obj_hashkeys := new_obj_hashkeys st;
          content_cache :=
            content_cache st
            ++ ((λ t, (old_obj_hashkey t, stream t)) <$> triplets);
          cache_size := cache_size st + foldr Z.add 0 (meta_size <$> triplets);
          outside := outside st |}.
Proof.
  intros Hnonneg. revert st.
  induction Hnonneg as [|t triplets Ht Hnonneg IH]; intros st Hsize Hsum Hnodup.
  - simpl. rewrite app_nil_r, Z.add_0_r. by destruct st.
  - rewrite !fmap_cons in *. cbn [foldr] in *.
    assert (0 ≤ foldr Z.add 0 (meta_size <$> triplets)) as Hrest.
    { clear -Hnonneg. induction Hnonneg as [|t0 ts Ht0 _ IH0]; [done|].
      rewrite fmap_cons. cbn [foldr]. lia. }
    apply NoDup_app in Hnodup as (Hcache & Hfresh & Hkeys).
    apply NoDup_cons in Hkeys as (Hnotin & Hkeys).
    assert (old_obj_hashkey t ∉ (content_cache st).*1) as Hnew.
    { intros Hin. apply (Hfresh _ Hin), elem_of_cons. by left. }
    cbn [for_triplets]. unfold loop_body.
    destruct (Z.gtb_spec (meta_size t) max_memory_usage); [lia|].
    destruct (Z.gtb_spec (cache_size st + meta_size t) max_memory_usage); [lia|].
    simpl. rewrite IH; simpl.
    + rewrite setitem_fresh by done. rewrite <- app_assoc. simpl.
      do 2 f_equal. lia.
    + lia.
    + lia.
    + rewrite setitem_fresh by done. rewrite fmap_app. simpl.
      rewrite <- app_assoc. simpl. apply NoDup_app. split; [done|]. split.
      * intros k Hk [->|Hin]%elem_of_cons; [done|].
        apply (Hfresh k Hk), elem_of_cons. by right.
      * by apply NoDup_cons.
Qed.

(** X5. A group whose objects have non-negative declared sizes that add
    up to at most the budget, with no old hashkey twice, is written by
    one single call, that of the final flush, which holds all the
    objects in the order in which they were yielded; this is so with any
    container. *)
Theorem group_within_budget_one_batch (w : world Container)
    (triplets : list triplet) :
  Forall (λ t, 0 ≤ meta_size t) triplets →
  foldr Z.add 0 (meta_size <$> triplets) ≤ max_memory_usage →
  NoDup (old_obj_hashkey <$> triplets) →
  ∃ st new_hashkeys,
    export_group compress max_memory_usage w triplets = Ok st
    ∧ pack_calls (outside st)
      = pack_calls w ++ [Call (old_obj_hashkey <$> triplets) (stream <$> triplets)
                           compress new_hashkeys]
    ∧ old_obj_hashkeys st = old_obj_hashkey <$> triplets
    ∧ new_obj_hashkeys st = new_hashkeys.
Proof.
  intros Hnonneg Hsum Hnodup. unfold export_group.
  rewrite (for_triplets_all_buffered triplets (enter w)); [|done|done|done|done].
  simpl. eexists _, _. split; [done|].
  unfold logged_write. simpl. unfold PyDict.items.
  assert (((λ t, (old_obj_hashkey t, stream t)) <$> triplets).*1
          = old_obj_hashkey <$> triplets) as -> by by rewrite <- list_fmap_compose.
  assert (((λ t, (old_obj_hashkey t, stream t)) <$> triplets).*2
          = stream <$> triplets) as -> by by rewrite <- list_fmap_compose.
  done.
Qed.

(** X6. With a budget that is not negative, declared sizes that are the
    lengths of the contents, no old hashkey twice in the group and a
    container that returns one hashkey for each stream, every call made
    for the group is either the direct write of one object bigger than
    the budget, or a batch of buffers whose lengths add up to at most the
    budget. *)
Theorem batches_within_budget (w : world Container) (triplets : list triplet) :
  positional →
  0 ≤ max_memory_usage →
  (∀ t, t ∈ triplets → meta_size t = len (stream t)) →
  NoDup (old_obj_hashkey <$> triplets) →
  ∃ st cs,
    export_group compress max_memory_usage w triplets = Ok st
    ∧ pack_calls (outside st) = pack_calls w ++ cs
    ∧ Forall (λ c,
        (∃ t, t ∈ triplets ∧ call_stream_list c = [stream t]
              ∧ meta_size t > max_memory_usage)
        ∨ foldr Z.add 0 (len <$> call_stream_list c) ≤ max_memory_usage) cs.
Proof.
  intros Hpos Hmax Hlen Hnodup. unfold export_group.
  destruct (for_triplets_returns compress max_memory_usage (enter w) triplets Hpos)
    as [st Hrun].
  rewrite Hrun. simpl.
  assert (cache_size st = buffered_size (content_cache st)
          ∧ cache_size st ≤ max_memory_usage
          ∧ (∀ k, k ∈ (content_cache st).*1 → k ∈ old_obj_hashkey <$> triplets)
          ∧ ∃ cs, pack_calls (outside st) = pack_calls w ++ cs
              ∧ Forall (λ c,
                  (∃ t, t ∈ triplets ∧ call_stream_list c = [stream t]
                        ∧ meta_size t > max_memory_usage)
                  ∨ foldr Z.add 0 (len <$> call_stream_list c)
                    ≤ max_memory_usage) cs)
    as (Hsize & Hle & _ & cs & Hlog & Hcs).
  { revert Hlen Hnodup. revert triplets st Hrun.
    apply (loop_invariant compress max_memory_usage (λ st pre,
      (∀ t, t ∈ pre → meta_size t = len (stream t)) →
      NoDup (old_obj_hashkey <$> pre) →
      cache_size st = buffered_size (content_cache st)
      ∧ cache_size st ≤ max_memory_usage
      ∧ (∀ k, k ∈ (content_cache st).*1 → k ∈ old_obj_hashkey <$> pre)
      ∧ ∃ cs, pack_calls (outside st) = pack_calls w ++ cs
          ∧ Forall (λ c,
              (∃ t, t ∈ pre ∧ call_stream_list c = [stream t]
                    ∧ meta_size t > max_memory_usage)
              ∨ foldr Z.add 0 (len <$> call_stream_list c)
                ≤ max_memory_usage) cs)).
    - intros _ _. simpl. split; [done|]. split; [done|].
      split; [intros k Hk; by apply elem_of_nil in Hk|].
      exists []. by rewrite app_nil_r.
    - intros st pre t st' IH Hb Hlen Hnodup.
      rewrite fmap_app in Hnodup.
      apply NoDup_app in Hnodup as (Hnodup & Hfresh & _).
      destruct IH as (Hsize & Hle & Hkeys & cs & Hlog & Hcs); [|done|].
      { intros t0 Ht0. apply Hlen, elem_of_app. by left. }
      assert (meta_size t = len (stream t)) as Ht.
      { apply Hlen, elem_of_app. right. by apply list_elem_of_singleton. }
      assert (t ∈ pre ++ [t]) as Hin.
      { apply elem_of_app. right. by apply list_elem_of_singleton. }
      assert (Forall (λ c,
                (∃ t0, t0 ∈ pre ++ [t] ∧ call_stream_list c = [stream t0]
                       ∧ meta_size t0 > max_memory_usage)
                ∨ foldr Z.add 0 (len <$> call_stream_list c)
                  ≤ max_memory_usage) cs) as Hcs'.
      { eapply Forall_impl; [done|]. intros c [(t0 & Ht0 & Hrest)|Hsum]; [|by right].
        left. exists t0. split; [|done]. apply elem_of_app. by left. }
      apply loop_body_cases in Hb
        as [[Hgt Hd] | [(Hle1 & Hgt & ->) | (Hle1 & Hle2 & ->)]].
      + apply direct_write_inv in Hd as (n & rest & _ & ->).
        unfold logged_write. simpl. split; [done|]. split; [done|]. split.
        { intros k Hk. rewrite fmap_app. apply elem_of_app. left. by apply Hkeys. }
        eexists (cs ++ [Call _ _ _ _]). rewrite Hlog, app_assoc. split; [done|].
        apply Forall_app. split; [done|]. apply Forall_singleton. left.
        by exists t.
      + unfold flush, logged_write. simpl. unfold PyDict.items.
        split; [unfold buffered_size; simpl; lia|]. split; [lia|]. split.
        { intros k ->%list_elem_of_singleton. rewrite fmap_app.
          apply elem_of_app. right. by apply list_elem_of_singleton. }
        eexists (cs ++ [Call _ _ _ _]). rewrite Hlog, app_assoc. split; [done|].
        apply Forall_app. split; [done|]. apply Forall_singleton. right. simpl.
        unfold buffered_size, PyDict.items in Hsize. lia.
      + simpl. rewrite setitem_fresh.
        * rewrite buffered_size_snoc. split; [lia|]. split; [lia|]. split.
          { intros k. rewrite !fmap_app.
            intros [Hk|Hk]%elem_of_app; apply elem_of_app;
              [left; by apply Hkeys | by right]. }
          by exists cs.
        * intros Hk. apply (Hfresh (old_obj_hashkey t)); [by apply Hkeys|].
          by apply list_elem_of_singleton. }
  eexists _, (cs ++ [Call _ _ _ _]). split; [done|].
  unfold logged_write. simpl. unfold PyDict.items.
  rewrite Hlog, app_assoc. split; [done|].
  apply Forall_app. split; [done|]. apply Forall_singleton. right. simpl.
  unfold buffered_size, PyDict.items in Hsize. lia.
Qed.

End Coverage.

(** ** [export_from_pack] *)

Section Ungrouped.

Context `{PackWriter Container}.
Variable compress : bool.
Variable max_memory_usage : Z.

Lemma pack_triplets_calls (triplets : list triplet)
    (st : @pack_locals Container) :
  positional →
  ∃ st' cs,
    pack_triplets compress st triplets = Ok st'
    ∧ pack_calls (pack_outside st') = pack_calls (pack_outside st) ++ cs
    ∧ call_old_hashkeys <$> cs = (λ t, [old_obj_hashkey t]) <$> triplets
    ∧ call_stream_list <$> cs = (λ t, [stream t]) <$> triplets
    ∧ pack_old_obj_hashkeys st'
      = pack_old_obj_hashkeys st ++ (old_obj_hashkey <$> triplets)
    ∧ pack_new_obj_hashkeys st'
      = pack_new_obj_hashkeys st ++ concat (call_new_hashkeys <$> cs)
    ∧ length (concat (call_new_hashkeys <$> cs)) = length triplets.
Proof.
  intros Hpos. revert st. induction triplets as [|t triplets IH]; intros st.
  - exists st, []. simpl. by rewrite !app_nil_r.
  - cbn [pack_triplets]. unfold pack_body, logged_write. simpl.
    pose proof (Hpos (output_container (pack_outside st)) [stream t] compress) as Hone.
    destruct (add_streamed_objects_to_pack _ _ _) as [[|n [|n' rest]] c] eqn:Hadd;
      simpl in *; try lia.
    destruct (IH {| pack_old_obj_hashkeys := pack_old_obj_hashkeys st ++ [old_obj_hashkey t];
                    pack_new_obj_hashkeys := pack_new_obj_hashkeys st ++ [n];
                    pack_outside := World c (pack_calls (pack_outside st) ++
                      [Call [old_obj_hashkey t] [stream t] compress [n]]) |})
      as (st' & cs & -> & Hlog & Hold & Hstreams & Hkeys & Hnew & Hlen).
    simpl in *.
    exists st', (Call [old_obj_hashkey t] [stream t] compress [n] :: cs).
    split; [done|]. rewrite Hlog, Hkeys, Hnew, <- !app_assoc.
    rewrite !fmap_cons, concat_cons, Hold, Hstreams, length_app, Hlen. done.
Qed.

Lemma one_call_per_triplet (w : world Container) (triplets : list triplet) :
  positional →
  ∃ st, pack_group compress w triplets = Ok st
        ∧ pack_old_obj_hashkeys st = old_obj_hashkey <$> triplets
        ∧ length (pack_new_obj_hashkeys st) = length triplets.
Proof.
  intros Hpos. unfold pack_group.
  destruct (pack_triplets_calls triplets
              {| pack_old_obj_hashkeys := []; pack_new_obj_hashkeys := [];
                 pack_outside := w |} Hpos)
    as (st & cs & Hrun & _ & _ & _ & Hkeys & Hnew & Hlen).
  simpl in *. exists st. rewrite Hnew. by repeat split.
Qed.

(** X7. With a container that returns one hashkey for each stream,
    [export_from_pack] makes, for a group, exactly one call for each
    triplet, in the order in which the triplets are yielded and each with
    the single stream of its triplet; the old hashkeys recorded are
    those of the triplets, in order, with one new hashkey for each. *)
Theorem one_call_for_each_object (w : world Container)
    (triplets : list triplet) :
  positional →
  ∃ st cs,
    pack_group compress w triplets = Ok st
    ∧ pack_calls (pack_outside st) = pack_calls w ++ cs
    ∧ call_old_hashkeys <$> cs = (λ t, [old_obj_hashkey t]) <$> triplets
    ∧ call_stream_list <$> cs = (λ t, [stream t]) <$> triplets
    ∧ pack_old_obj_hashkeys st = old_obj_hashkey <$> triplets
    ∧ pack_new_obj_hashkeys st = concat (call_new_hashkeys <$> cs)
    ∧ length (pack_new_obj_hashkeys st) = length triplets.
Proof.
  intros Hpos. unfold pack_group.
  destruct (pack_triplets_calls triplets
              {| pack_old_obj_hashkeys := []; pack_new_obj_hashkeys := [];
                 pack_outside := w |} Hpos)
    as (st & cs & Hrun & Hlog & Hold & Hstreams & Hkeys & Hnew & Hlen).
  simpl in *. exists st, cs. rewrite Hnew. by repeat split.
Qed.

(** The grouped function and the plain one in step, while every object
    is bigger than the budget: the same hashkey lists, the same
    container, and an empty cache. *)
Lemma oversized_in_step (triplets : list triplet) (st : @locals Container)
    (st' : @pack_locals Container) :
  Forall (λ t, meta_size t > max_memory_usage) triplets →
  content_cache st = [] →
  old_obj_hashkeys st = pack_old_obj_hashkeys st' →
  new_obj_hashkeys st = pack_new_obj_hashkeys st' →
  output_container (outside st) = output_container (pack_outside st') →
  match for_triplets compress max_memory_usage st triplets,
        pack_triplets compress st' triplets with
  | Ok s, Ok s' =>
      content_cache s = []
      ∧ old_obj_hashkeys s = pack_old_obj_hashkeys s'
      ∧ new_obj_hashkeys s = pack_new_obj_hashkeys s'
      ∧ output_container (outside s) = output_container (pack_outside s')
  | Raise e, Raise e' => e = e'
  | _, _ => False
  end.
Proof.
  intros Hbig. revert st st'.
  induction Hbig as [|t triplets Ht _ IH]; intros st st' Hcache Hold Hnew Hcont.
  - by simpl.
  - cbn [for_triplets pack_triplets].
    unfold loop_body, direct_write, pack_body, logged_write.
    destruct (Z.gtb_spec (meta_size t) max_memory_usage); [|lia].
    simpl. rewrite Hcont.
    destruct (add_streamed_objects_to_pack _ _ _) as [[|n rest] c]; simpl; [done|].
    apply IH; simpl; [done|by rewrite Hold|by rewrite Hnew|done].
Qed.

Lemma oversized_groups_in_step (groups : list (list triplet))
    (w w' : world Container) (m : option (gmap hashkey hashkey)) :
  (∀ c z, add_streamed_objects_to_pack c [] z = ([], c)) →
  Forall (Forall (λ t, meta_size t > max_memory_usage)) groups →
  output_container w = output_container w' →
  match for_groups compress max_memory_usage w m groups,
        pack_groups compress w' m groups with
  | Ok r, Ok r' => output_container r.1 = output_container r'.1 ∧ r.2 = r'.2
  | Raise e, Raise e' => e = e'
  | _, _ => False
  end.
Proof.
  intros Hempty Hbig. revert w w' m.
  induction Hbig as [|g groups Hg _ IH]; intros w w' m Hcont; [done|].
  cbn [for_groups pack_groups]. unfold export_group, pack_group.
  pose proof (oversized_in_step g (enter w)
                {| pack_old_obj_hashkeys := []; pack_new_obj_hashkeys := [];
                   pack_outside := w' |} Hg eq_refl eq_refl eq_refl Hcont) as Hstep.
  destruct (for_triplets _ _ _ g) as [s|e], (pack_triplets _ _ g) as [s'|e'];
    simpl; try done.
  destruct Hstep as (Hcache & Hold & Hnew & Hc).
  unfold group_mapping, pack_mapping. simpl. unfold PyDict.items.
  rewrite Hcache. simpl. rewrite Hempty. simpl.
  rewrite !app_nil_r, Hold, Hnew. by apply IH.
Qed.

(** X8. When every object of every group is bigger than the budget and
    writing no stream at all leaves the container as it is and returns
    no hashkey, [export_from_pack_grouped] and [export_from_pack] end in
    the same way: both return the same container and the same mapping,
    or both raise the same exception. *)
Theorem all_oversized_same_as_ungrouped (c : Container)
    (groups : list (list triplet)) :
  (∀ c z, add_streamed_objects_to_pack c [] z = ([], c)) →
  (∀ g t, g ∈ groups → t ∈ g → meta_size t > max_memory_usage) →
  match export_from_pack_grouped compress max_memory_usage c groups,
        export_from_pack compress c groups with
  | Ok (w, m), Ok (w', m') => output_container w = output_container w' ∧ m = m'
  | Raise e, Raise e' => e = e'
  | _, _ => False
  end.
Proof.
  intros Hempty Hbig. unfold export_from_pack_grouped, export_from_pack.
  assert (Forall (Forall (λ t, meta_size t > max_memory_usage)) groups) as Hall.
  { apply Forall_forall. intros g Hg. apply Forall_forall. intros t Ht. by eapply Hbig. }
  pose proof (oversized_groups_in_step groups (World c []) (World c []) None
                Hempty Hall eq_refl) as Hstep.
  destruct (for_groups _ _ _ _ groups) as [[w o]|e],
           (pack_groups _ _ _ groups) as [[w' o']|e']; simpl in *; try done.
  destruct Hstep as [Hc <-]. by destruct o.
Qed.

Lemma pack_groups_app (w : world Container)
    (m : option (gmap hashkey hashkey)) (groups : list (list triplet))
    (g : list triplet) :
  pack_groups compress w m (groups ++ [g])
  = (pack_groups compress w m groups ≫= λ r,
     pack_group compress r.1 g ≫= λ st,
     Ok (pack_outside st, Some (pack_mapping st))).
Proof.
  revert w m. induction groups as [|g0 groups IH]; intros w m; simpl.
  - by destruct (pack_group _ w g).
  - destruct (pack_group _ w g0) as [st|e]; simpl; [apply IH | done].
Qed.

Lemma pack_groups_returns (w : world Container)
    (m : option (gmap hashkey hashkey)) (groups : list (list triplet)) :
  positional → ∃ r, pack_groups compress w m groups = Ok r.
Proof.
  intros Hpos. revert w m. induction groups as [|g groups IH]; intros w m; simpl.
  - by eexists.
  - destruct (one_call_per_triplet w g Hpos) as (st & -> & _). simpl. apply IH.
Qed.

(** X15. [export_from_pack] has the mapping of [export_from_pack_grouped]:
    with a container that returns one hashkey for each stream and a
    non-empty list of groups, the keys of the mapping returned are
    exactly the old hashkeys of the last group. *)
Theorem ungrouped_mapping_is_last_group (c : Container)
    (groups : list (list triplet)) (g : list triplet) :
  positional →
  ∃ w m,
    export_from_pack compress c (groups ++ [g]) = Ok (w, m)
    ∧ ∀ k, is_Some (m !! k) ↔ k ∈ old_obj_hashkey <$> g.
Proof.
  intros Hpos. unfold export_from_pack. rewrite pack_groups_app.
  destruct (pack_groups_returns (World c []) None groups Hpos) as [r ->]. simpl.
  destruct (one_call_per_triplet r.1 g Hpos) as (st & Hst & Hkeys & Hlen).
  rewrite Hst. simpl. eexists _, _. split; [done|]. intros k.
  unfold pack_mapping. rewrite of_pairs_is_Some, fst_zip; [by rewrite Hkeys|].
  rewrite Hkeys, length_fmap, Hlen. lia.
Qed.

End Ungrouped.

(** ** The legacy layout *)

Lemma string_take_drop (n : nat) (s : string) :
  string_take n s +:+ string_drop n s = s.
Proof.
  revert s. induction n as [|n IH]; intros [|c s]; try done.
  cbn [string_take string_drop]. change (String c (string_take n s) +:+ ?b)
    with (String c (string_take n s +:+ b)). by rewrite IH.
Qed.

Lemma string_drop_drop (n m : nat) (s : string) :
  string_drop n (string_drop m s) = string_drop (m + n) s.
Proof.
  revert s. induction m as [|m IH]; intros s; simpl; [done|].
  destruct s as [|c s]; [by destruct n | apply IH].
Qed.

Lemma string_take_app (a b : string) :
  string_take (String.length a) (a +:+ b) = a.
Proof.
  induction a as [|c a IH]; [by destruct b|].
  change (String c a +:+ b) with (String c (a +:+ b)).
  cbn [String.length string_take]. by rewrite IH.
Qed.

Lemma string_drop_app (a b : string) :
  string_drop (String.length a) (a +:+ b) = b.
Proof.
  induction a as [|c a IH]; [by destruct b|].
  change (String c a +:+ b) with (String c (a +:+ b)).
  cbn [String.length string_drop]. apply IH.
Qed.

Lemma slices_concatenate (s : string) :
  slice 0 2 s +:+ slice 2 4 s +:+ string_drop 4 s = s.
Proof.
  unfold slice. change (4 - 2)%nat with 2%nat. change (2 - 0)%nat with 2%nat.
  change (string_drop 0 s) with s.
  rewrite <- (string_drop_drop 2 2 s : _ = string_drop 4 s).
  by rewrite !string_take_drop.
Qed.

Lemma shard_length (level : string) :
  not_a_shard level = false → String.length level = 2%nat.
Proof.
  unfold not_a_shard. intros [Hlen _]%orb_false_elim.
  apply negb_false_iff in Hlen. by apply Nat.eqb_eq in Hlen.
Qed.

Lemma shards_of_concatenation (level1 level2 node_uuid_part : string) :
  String.length level1 = 2%nat →
  String.length level2 = 2%nat →
  slice 0 2 (level1 +:+ level2 +:+ node_uuid_part) = level1
  ∧ slice 2 4 (level1 +:+ level2 +:+ node_uuid_part) = level2
  ∧ string_drop 4 (level1 +:+ level2 +:+ node_uuid_part) = node_uuid_part.
Proof.
  intros H1 H2. unfold slice.
  change (4 - 2)%nat with 2%nat. change (2 - 0)%nat with 2%nat.
  rewrite <- (string_drop_drop 2 2 _ : _ = string_drop 4 _).
  change (string_drop 0 ?s) with s.
  pose proof (string_take_app level1 (level2 +:+ node_uuid_part)) as Htake1.
  pose proof (string_drop_app level1 (level2 +:+ node_uuid_part)) as Hdrop1.
  pose proof (string_take_app level2 node_uuid_part) as Htake2.
  pose proof (string_drop_app level2 node_uuid_part) as Hdrop2.
  rewrite H1 in Htake1, Hdrop1. rewrite H2 in Htake2, Hdrop2.
  by rewrite Htake1, Hdrop1, Htake2, Hdrop2.
Qed.

Lemma for_each_invariant {A S : Type} (I : list A → S → Prop) (xs : list A)
    (body : S → A → option S) (s0 s : S) :
  I [] s0 →
  (∀ pre x s1 s2, x ∈ xs → I pre s1 → body s1 x = Some s2 → I (pre ++ [x]) s2) →
  for_each xs body s0 = Some s → I xs s.
Proof.
  intros Hinit Hstep.
  cut (∀ post pre s1, xs = pre ++ post → I pre s1 →
         for_each post body s1 = Some s → I xs s).
  { intros Hcut. by apply (Hcut xs [] s0). }
  induction post as [|x post IH]; intros pre s1 Hxs Hpre; simpl.
  - intros [= <-]. by rewrite Hxs, app_nil_r.
  - destruct (body s1 x) as [s2|] eqn:Hb; simpl; [|done].
    apply (IH (pre ++ [x])); [by rewrite <- app_assoc|].
    eapply Hstep; [|done..]. rewrite Hxs.
    apply elem_of_app. right. apply elem_of_cons. by left.
Qed.

Lemma folder_paths_of_equiv (node_folder : string) (D D' : string → Prop)
    (m : gmap string string) :
  (∀ u, D u ↔ D' u) →
  folder_paths_of node_folder D m → folder_paths_of node_folder D' m.
Proof. intros Heq Hm u p. rewrite <- Heq. apply Hm. Qed.

Lemma folder_paths_of_insert (node_folder : string) (D : string → Prop)
    (m : gmap string string) (k : string) :
  folder_paths_of node_folder D m →
  folder_paths_of node_folder (λ u, D u ∨ u = k)
    (<[k := legacy_node_folder node_folder k]> m).
Proof.
  intros Hm u p. destruct (decide (k = u)) as [<-|Hne].
  - rewrite lookup_insert_eq. split; [intros [= <-]; split; [done | by right]|].
    by intros [-> _].
  - rewrite lookup_insert_ne by done. rewrite (Hm u p).
    split; intros [Hp Hu]; (split; [done|]); [by left|].
    destruct Hu as [Hu | ->]; [done | congruence].
Qed.

(** X10. When [import_from_legacy_repo] gets through its listings, the
    dict [folder_paths] has an entry for a node uuid if and only if the
    uuid has 36 characters and the folder [uuid[:2]/uuid[2:4]/uuid[4:]]
    is listed under [node_folder] with two levels that are each two
    lower-case hexadecimal digits; the entry is then the path of that
    folder, which is the path under which [main] files the node when it
    writes the legacy layout. *)
Theorem import_reads_legacy_layout (listdir : string → option (list string))
    (node_folder : string) (folder_paths : gmap string string) :
  import_from_legacy_repo listdir node_folder = Some folder_paths →
  ∀ node_uuid path,
    folder_paths !! node_uuid = Some path
    ↔ path = legacy_node_folder node_folder node_uuid
      ∧ String.length node_uuid = 36%nat
      ∧ listed listdir node_folder (slice 0 2 node_uuid) (slice 2 4 node_uuid)
          (string_drop 4 node_uuid).
Proof.
  unfold import_from_legacy_repo.
  destruct (listdir node_folder) as [level1s|] eqn:Hl1;
    cbn [mbind option_bind]; [|done].
  intros Hrun.
  change (folder_paths_of node_folder (λ u,
    String.length u = 36%nat
    ∧ listed listdir node_folder (slice 0 2 u) (slice 2 4 u) (string_drop 4 u))
    folder_paths).
  apply (folder_paths_of_equiv node_folder (λ u,
    String.length u = 36%nat
    ∧ listed listdir node_folder (slice 0 2 u) (slice 2 4 u) (string_drop 4 u)
    ∧ slice 0 2 u ∈ level1s)).
  { intros u. split; [tauto|]. intros [Hlen Hlisted]. repeat split; try done.
    destruct Hlisted as (l1s & _ & _ & Hl1' & Hin & _). congruence. }
  revert Hrun.
  apply (for_each_invariant (λ pre m, folder_paths_of node_folder (λ u,
    String.length u = 36%nat
    ∧ listed listdir node_folder (slice 0 2 u) (slice 2 4 u) (string_drop 4 u)
    ∧ slice 0 2 u ∈ pre) m)).
  { intros u p. rewrite lookup_empty. split; [done|].
    intros (_ & _ & _ & Hin). by apply elem_of_nil in Hin. }
  intros pre1 level1 m1 m1' Hin1 Hm1 Hbody1.
  destruct (not_a_shard level1) eqn:Hshard1.
  { injection Hbody1 as <-. revert Hm1. apply folder_paths_of_equiv.
    intros u. rewrite elem_of_app, list_elem_of_singleton.
    split; [tauto|]. intros (Hlen & Hlisted & [Hin|Heq]); [tauto|].
    destruct Hlisted as (? & ? & ? & _ & _ & Hns & _). congruence. }
  destruct (listdir (os_path_join node_folder [level1])) as [level2s|] eqn:Hl2;
    cbn [mbind option_bind] in Hbody1; [|done].
  apply (folder_paths_of_equiv node_folder (λ u,
    String.length u = 36%nat
    ∧ listed listdir node_folder (slice 0 2 u) (slice 2 4 u) (string_drop 4 u)
    ∧ (slice 0 2 u ∈ pre1 ∨ slice 0 2 u = level1 ∧ slice 2 4 u ∈ level2s))).
  { intros u. rewrite elem_of_app, list_elem_of_singleton.
    split; [tauto|]. intros (Hlen & Hlisted & [Hin|Heq]); [tauto|].
    repeat split; try done. right. split; [done|].
    destruct Hlisted as (? & l2s & ? & _ & _ & _ & Hl2' & Hin2 & _).
    rewrite Heq in Hl2'. congruence. }
  revert Hbody1.
  apply (for_each_invariant (λ pre m, folder_paths_of node_folder (λ u,
    String.length u = 36%nat
    ∧ listed listdir node_folder (slice 0 2 u) (slice 2 4 u) (string_drop 4 u)
    ∧ (slice 0 2 u ∈ pre1 ∨ slice 0 2 u = level1 ∧ slice 2 4 u ∈ pre)) m)).
  { revert Hm1. apply folder_paths_of_equiv. intros u.
    split; [tauto|]. intros (Hlen & Hlisted & [Hin|[_ Hin]]); [tauto|].
    by apply elem_of_nil in Hin. }
  intros pre2 level2 m2 m2' Hin2 Hm2 Hbody2.
  destruct (not_a_shard level2) eqn:Hshard2.
  { injection Hbody2 as <-. revert Hm2. apply folder_paths_of_equiv.
    intros u. rewrite elem_of_app, list_elem_of_singleton.
    split; [tauto|].
    intros (Hlen & Hlisted & [Hin|[Heq1 [Hin|Heq2]]]); [tauto|tauto|].
    destruct Hlisted as (? & ? & ? & _ & _ & _ & _ & _ & Hns & _). congruence. }
  destruct (listdir (os_path_join node_folder [level1; level2]))
    as [node_uuid_parts|] eqn:Hl3; cbn [mbind option_bind] in Hbody2; [|done].
  apply (folder_paths_of_equiv node_folder (λ u,
    String.length u = 36%nat
    ∧ listed listdir node_folder (slice 0 2 u) (slice 2 4 u) (string_drop 4 u)
    ∧ (slice 0 2 u ∈ pre1
       ∨ slice 0 2 u = level1
         ∧ (slice 2 4 u ∈ pre2
            ∨ slice 2 4 u = level2 ∧ string_drop 4 u ∈ node_uuid_parts)))).
  { intros u. rewrite elem_of_app, list_elem_of_singleton.
    split; [tauto|].
    intros (Hlen & Hlisted & [Hin|[Heq1 [Hin|Heq2]]]); [tauto|tauto|].
    repeat split; try done. right. split; [done|]. right. split; [done|].
    destruct Hlisted as (? & ? & parts & _ & _ & _ & _ & _ & _ & Hl3' & Hin3).
    rewrite Heq1, Heq2 in Hl3'. congruence. }
  revert Hbody2.
  apply (for_each_invariant (λ pre m, folder_paths_of node_folder (λ u,
    String.length u = 36%nat
    ∧ listed listdir node_folder (slice 0 2 u) (slice 2 4 u) (string_drop 4 u)
    ∧ (slice 0 2 u ∈ pre1
       ∨ slice 0 2 u = level1
         ∧ (slice 2 4 u ∈ pre2
            ∨ slice 2 4 u = level2 ∧ string_drop 4 u ∈ pre))) m)).
  { revert Hm2. apply folder_paths_of_equiv. intros u.
    split; [tauto|].
    intros (Hlen & Hlisted & [Hin|[Heq1 [Hin|[_ Hin]]]]); [tauto|tauto|].
    by apply elem_of_nil in Hin. }
  intros pre3 node_uuid_part m3 m3' Hin3 Hm3 Hbody3. cbv zeta in Hbody3.
  pose proof (shard_length _ Hshard1) as Hlen1.
  pose proof (shard_length _ Hshard2) as Hlen2.
  destruct (shards_of_concatenation level1 level2 node_uuid_part Hlen1 Hlen2)
    as (Hs1 & Hs2 & Hs3).
  destruct (String.length (level1 +:+ level2 +:+ node_uuid_part) =? 36)%nat
    eqn:Hlen36; cbn [negb] in Hbody3.
  - apply Nat.eqb_eq in Hlen36.
    assert (m3' = <[level1 +:+ level2 +:+ node_uuid_part :=
                    legacy_node_folder node_folder
                      (level1 +:+ level2 +:+ node_uuid_part)]> m3) as ->.
    { unfold legacy_node_folder. rewrite Hs1, Hs2, Hs3. congruence. }
    apply (folder_paths_of_insert _ _ _ (level1 +:+ level2 +:+ node_uuid_part))
      in Hm3.
    revert Hm3. apply folder_paths_of_equiv. intros u.
    rewrite elem_of_app, list_elem_of_singleton. split.
    + intros [Hu | ->]; [tauto|]. rewrite Hs1, Hs2, Hs3.
      split; [done|]. split; [|tauto].
      by exists level1s, level2s, node_uuid_parts.
    + intros (Hlen & Hlisted & [Hin|[Heq1 [Hin|[Heq2 [Hin|Heq3]]]]]);
        [tauto|tauto|tauto|].
      right. by rewrite <- (slices_concatenate u), Heq1, Heq2, Heq3.
  - apply Nat.eqb_neq in Hlen36. assert (m3' = m3) as -> by congruence.
    revert Hm3. apply folder_paths_of_equiv. intros u.
    rewrite elem_of_app, list_elem_of_singleton. split; [tauto|].
    intros (Hlen & Hlisted & [Hin|[Heq1 [Hin|[Heq2 [Hin|Heq3]]]]]);
      [tauto|tauto|tauto|].
    destruct Hlen36.
    by rewrite <- Heq1, <- Heq2, <- Heq3, slices_concatenate.
Qed.

Lemma for_each_is_Some {A S : Type} (P : A → Prop) (xs : list A)
    (body : S → A → option S) (s : S) :
  (∀ s x, x ∈ xs → is_Some (body s x) ↔ P x) →
  is_Some (for_each xs body s) ↔ Forall P xs.
Proof.
  revert s. induction xs as [|x xs IH]; intros s Hbody; simpl.
  - split; [by constructor | by eexists].
  - rewrite Forall_cons, <- (Hbody s x) by (apply elem_of_cons; by left).
    destruct (body s x) as [s'|]; simpl.
    + rewrite IH; [split; [by split | by intros [_ ?]]|].
      intros s0 x0 Hx0. apply Hbody, elem_of_cons. by right.
    + split; [by intros []%is_Some_None | by intros [[]%is_Some_None _]].
Qed.

(** X11. [import_from_legacy_repo] gets through its listings if and only
    if [node_folder] can be listed, every entry of it that is two
    lower-case hexadecimal digits can be listed, and so can every such
    entry one level below; an entry that is skipped is never listed, so
    that it cannot make the function fail. *)
Theorem import_lists_shards_only (listdir : string → option (list string))
    (node_folder : string) :
  is_Some (import_from_legacy_repo listdir node_folder)
  ↔ ∃ level1s,
      listdir node_folder = Some level1s
      ∧ Forall (λ level1,
          not_a_shard level1 = false →
          ∃ level2s,
            listdir (os_path_join node_folder [level1]) = Some level2s
            ∧ Forall (λ level2,
                not_a_shard level2 = false →
                is_Some (listdir (os_path_join node_folder [level1; level2])))
                level2s) level1s.
Proof.
  unfold import_from_legacy_repo.
  destruct (listdir node_folder) as [level1s|]; cbn [mbind option_bind].
  2:{ split; [by intros []%is_Some_None | by intros (? & [=] & _)]. }
  rewrite for_each_is_Some.
  { split; [by exists level1s | by intros (? & [= <-] & ?)]. }
  intros m1 level1 _. cbv beta.
  destruct (not_a_shard level1); [by split; [|eexists]|].
  destruct (listdir (os_path_join node_folder [level1])) as [level2s|];
    cbn [mbind option_bind].
  2:{ split; [by intros []%is_Some_None|].
      intros Hl. by destruct (Hl eq_refl) as (? & [=] & _). }
  rewrite for_each_is_Some.
  { split; [by exists level2s|].
    intros Hl. by destruct (Hl eq_refl) as (? & [= <-] & ?). }
  intros m2 level2 _. cbv beta.
  destruct (not_a_shard level2); [by split; [|eexists]|].
  destruct (listdir (os_path_join node_folder [level1; level2]))
    as [node_uuid_parts|]; cbn [mbind option_bind].
  2:{ split; [by intros []%is_Some_None|].
      intros Hl. by destruct (is_Some_None (Hl eq_refl)). }
  rewrite (for_each_is_Some (λ _, True)).
  { split; [by intros _ _; eexists | intros _; by apply Forall_true]. }
  intros m3 node_uuid_part _. cbv zeta.
  by destruct (negb _); split; [|eexists| |eexists].
Qed.

(** X9. The three components under which [main] files the folder of a
    node, [uuid[:2]], [uuid[2:4]] and [uuid[4:]], concatenate back to
    the uuid, whatever its length: this is the name that
    [import_from_legacy_repo] rebuilds at line 225. *)
Theorem shards_concatenate_to_uuid (node_uuid : string) :
  slice 0 2 node_uuid +:+ slice 2 4 node_uuid +:+ string_drop 4 node_uuid
  = node_uuid.
Proof. apply slices_concatenate. Qed.

(** ** The two chunks of [main] *)

(** X12. The two chunks that [main] exports as two groups are the list
    of node uuids cut in two: put end to end they give the list back,
    and the second chunk has as many uuids as the first, or one more. *)
Theorem two_chunks_cover {A : Type} (node_uuids : list A) :
  (two_chunks node_uuids).1 ++ (two_chunks node_uuids).2 = node_uuids
  ∧ (length (two_chunks node_uuids).1 ≤ length (two_chunks node_uuids).2
     ≤ length (two_chunks node_uuids).1 + 1)%nat.
Proof.
  unfold two_chunks. cbn [fst snd]. split; [apply take_drop|].
  rewrite length_take, length_drop.
  pose proof (Nat.div_mod_eq (length node_uuids) 2) as Hdiv.
  pose proof (Nat.mod_upper_bound (length node_uuids) 2 ltac:(lia)) as Hmod.
  lia.
Qed.

(** ** [create_folder] *)

Section CreateFolderFacts.

Variable list_objects : string → list (string * FileType).
Variable open_read : string → bytes.

Lemma startswith_sep_app (a b : string) :
  a ≠ "" → startswith_sep (a +:+ b) = startswith_sep a.
Proof. by destruct a. Qed.

Lemma endswith_sep_nonempty (path : string) :
  endswith_sep path = true → path ≠ "".
Proof. by destruct path. Qed.

Lemma join_component_relative (path b : string) :
  startswith_sep b = false → ∃ rest, join_component path b = path +:+ rest.
Proof.
  intros Hb. unfold join_component. rewrite Hb.
  destruct (_ || _); by eexists.
Qed.

Lemma join_component_stays_relative (path b : string) :
  startswith_sep path = false → startswith_sep b = false →
  startswith_sep (join_component path b) = false.
Proof.
  intros Hpath Hb. unfold join_component. rewrite Hb.
  case_bool_decide as Hempty; simpl.
  - by rewrite Hempty.
  - destruct (endswith_sep path); by rewrite startswith_sep_app.
Qed.



End CreateFolderFacts.

(** ** The theorems above at concrete inputs *)

Ltac elem_cases H :=
  repeat (apply elem_of_cons in H as [?|H]; [simplify_eq|]);
  try (by apply elem_of_nil in H).

Lemma counting_writer_empty_write (c : nat) (z : bool) :
  add_streamed_objects_to_pack c [] z = ([], c).
Proof.
  unfold add_streamed_objects_to_pack, counting_writer. simpl.
  by rewrite Nat.add_0_r.
Qed.

Lemma no_oversized_object_no_exception_witness :
  ∃ w m, export_from_pack_grouped (H := mute_writer) false 100 ()
           [[object "A" 30; object "B" 30]; [object "C" 50]] = Ok (w, m).
Proof.
  apply (no_oversized_object_no_exception (H := mute_writer) false 100 ()).
  - done.
  - intros g t Hg Ht. elem_cases Hg; elem_cases Ht; by vm_compute.
Defined.

Lemma mapping_is_last_group_witness :
  ∃ w m,
    export_from_pack_grouped false 100 0%nat
      ([[object "A" 30; object "X" 500]] ++ [[object "B" 30; object "C" 90]])
      = Ok (w, m)
    ∧ ∀ k, is_Some (m !! k)
           ↔ k ∈ old_obj_hashkey <$> [object "B" 30; object "C" 90].
Proof.
  apply (mapping_is_last_group false 100 0%nat _ _ counting_writer_positional).
Defined.

Lemma every_object_written_once_witness :
  ∃ st cs,
    export_group false 100 (World 0%nat [])
      [object "A" 30; object "B" 30; object "X" 500; object "C" 50] = Ok st
    ∧ pack_calls (outside st) = [] ++ cs
    ∧ (cs ≫= λ c, zip (call_old_hashkeys c) (call_stream_list c))
      ≡ₚ (λ t, (old_obj_hashkey t, stream t))
           <$> [object "A" 30; object "B" 30; object "X" 500; object "C" 50].
Proof.
  apply (every_object_written_once false 100 (World 0%nat []) _
           counting_writer_positional).
  apply (bool_decide_unpack _). by vm_compute.
Defined.

Lemma group_within_budget_one_batch_witness :
  ∃ st new_hashkeys,
    export_group false 100 (World 0%nat [])
      [object "D" 10; object "E" 10; object "F" 10] = Ok st
    ∧ pack_calls (outside st)
      = [] ++ [Call ["D"; "E"; "F"] [zeros 10; zeros 10; zeros 10] false
                 new_hashkeys]
    ∧ old_obj_hashkeys st = ["D"; "E"; "F"]
    ∧ new_obj_hashkeys st = new_hashkeys.
Proof.
  apply (group_within_budget_one_batch false 100 (World 0%nat [])
           [object "D" 10; object "E" 10; object "F" 10]).
  - repeat constructor; by vm_compute.
  - by vm_compute.
  - apply (bool_decide_unpack _). by vm_compute.
Defined.

Lemma batches_within_budget_witness :
  ∃ st cs,
    export_group false 100 (World 0%nat [])
      [object "A" 30; object "B" 30; object "X" 500; object "C" 50] = Ok st
    ∧ pack_calls (outside st) = [] ++ cs
    ∧ Forall (λ c,
        (∃ t, t ∈ [object "A" 30; object "B" 30; object "X" 500; object "C" 50]
              ∧ call_stream_list c = [stream t] ∧ meta_size t > 100)
        ∨ foldr Z.add 0 (len <$> call_stream_list c) ≤ 100) cs.
Proof.
  apply (batches_within_budget false 100 (World 0%nat []) _
           counting_writer_positional).
  - lia.
  - intros t Ht. elem_cases Ht; by vm_compute.
  - apply (bool_decide_unpack _). by vm_compute.
Defined.

Lemma ungrouped_mapping_is_last_group_witness :
  ∃ w m,
    export_from_pack false 0%nat
      ([[object "A" 30; object "X" 500]] ++ [[object "B" 30; object "C" 90]])
      = Ok (w, m)
    ∧ ∀ k, is_Some (m !! k)
           ↔ k ∈ old_obj_hashkey <$> [object "B" 30; object "C" 90].
Proof.
  apply (ungrouped_mapping_is_last_group false 0%nat _ _
           counting_writer_positional).
Defined.

Lemma one_call_for_each_object_witness :
  ∃ st cs,
    pack_group false (World 0%nat []) [object "A" 30; object "B" 30] = Ok st
    ∧ pack_calls (pack_outside st) = [] ++ cs
    ∧ call_old_hashkeys <$> cs
      = (λ t, [old_obj_hashkey t]) <$> [object "A" 30; object "B" 30]
    ∧ call_stream_list <$> cs
      = (λ t, [stream t]) <$> [object "A" 30; object "B" 30]
    ∧ pack_old_obj_hashkeys st = old_obj_hashkey <$> [object "A" 30; object "B" 30]
    ∧ pack_new_obj_hashkeys st = concat (call_new_hashkeys <$> cs)
    ∧ length (pack_new_obj_hashkeys st) = length [object "A" 30; object "B" 30].
Proof.
  apply (one_call_for_each_object false (World 0%nat []) _
           counting_writer_positional).
Defined.

Lemma all_oversized_same_as_ungrouped_witness :
  match export_from_pack_grouped false 100 0%nat
          [[object "X" 500; object "Y" 600]; [object "Z" 700]],
        export_from_pack false 0%nat
          [[object "X" 500; object "Y" 600]; [object "Z" 700]] with
  | Ok (w, m), Ok (w', m') => output_container w = output_container w' ∧ m = m'
  | Raise e, Raise e' => e = e'
  | _, _ => False
  end.
Proof.
  apply (all_oversized_same_as_ungrouped false 100 0%nat
           [[object "X" 500; object "Y" 600]; [object "Z" 700]]
           counting_writer_empty_write).
  intros g t Hg Ht. elem_cases Hg; elem_cases Ht; by vm_compute.
Defined.

Lemma import_reads_legacy_layout_witness :
  ∃ folder_paths,
    import_from_legacy_repo sample_listdir "/r/node" = Some folder_paths
    ∧ (folder_paths !! "abcdef01-2345-6789-abcd-ef0123456789"
         = Some "/r/node/ab/cd/ef01-2345-6789-abcd-ef0123456789"
       ↔ "/r/node/ab/cd/ef01-2345-6789-abcd-ef0123456789"
           = legacy_node_folder "/r/node" "abcdef01-2345-6789-abcd-ef0123456789"
         ∧ String.length "abcdef01-2345-6789-abcd-ef0123456789" = 36%nat
         ∧ listed sample_listdir "/r/node"
             (slice 0 2 "abcdef01-2345-6789-abcd-ef0123456789")
             (slice 2 4 "abcdef01-2345-6789-abcd-ef0123456789")
             (string_drop 4 "abcdef01-2345-6789-abcd-ef0123456789")).
Proof.
  eexists. split; [by vm_compute|].
  apply (import_reads_legacy_layout sample_listdir "/r/node"). by vm_compute.
Defined.


